(** * fuzzyfiler: media triage with a fuzzy finder

    A shallow embedding of [fuzzyfiler.py] and the properties of its
    path scanner ([gather_files], [gather_directories]), of its sorting engine
    ([sort_files]) and of its entry point ([main]).

    Modelling conventions.
    - Paths are byte strings ([string]); the helpers of [os.path] that the
      program calls ([join], [splitext], [basename]) follow the POSIX
      implementation of the Python library, index by index.
    - Strings are in UTF-8.  [str.lower] is modelled as far as it yields
      ASCII characters, which is what the test against EXT_WHITELIST reads:
      on the letters A to Z and on the Kelvin sign.
    - A path names one file: no file is reached under two spellings, and the
      labels handed to [shutil.copy] are directories, as the ones that [main]
      collects are.
    - Python sets of paths are [gset string].
    - A directory tree is the mutual inductive [node]/[listing]: what
      [os.listdir], [os.path.isdir] and [os.path.isfile] answer below a root.
    - The operator at the fuzzy finder is a script: the list of answers that
      [iterfzf] gives, in order.  A run that outlives its script is blocked
      at the prompt.
    - Everything the program prints or does to the outside world is appended
      to a log of [event]s. *)

From Stdlib Require Import ZArith Ascii String List Lia Bool FunInd.
From stdpp Require Import base decidable gmap strings list.
Import ListNotations.

Local Open Scope string_scope.
Local Open Scope list_scope.

(** ** Strings as Python indexes them *)

Module PyStr.

(** [s.rfind(c)]: the highest index of [c] in [s], or -1. *)
Fixpoint rfind (c : ascii) (s : string) : Z :=
  match s with
  | EmptyString => (-1)%Z
  | String a s' =>
      let r := rfind c s' in
      if (0 <=? r)%Z then (r + 1)%Z
      else if Ascii.eqb a c then 0%Z else (-1)%Z
  end.

(** [s[i:]] for a non-negative [i]. *)
Fixpoint drop_str (i : nat) (s : string) : string :=
  match i, s with
  | O, _ => s
  | S i', String _ s' => drop_str i' s'
  | S _, EmptyString => EmptyString
  end.

(** [s[:i]] for a non-negative [i]. *)
Fixpoint take_str (i : nat) (s : string) : string :=
  match i, s with
  | O, _ => EmptyString
  | S i', String a s' => String a (take_str i' s')
  | S _, EmptyString => EmptyString
  end.

(** [s.startswith(c)] and [s.endswith(c)] for a one-character [c]. *)
Definition startswith (c : ascii) (s : string) : bool :=
  match s with
  | String a _ => Ascii.eqb a c
  | EmptyString => false
  end.

Fixpoint endswith (c : ascii) (s : string) : bool :=
  match s with
  | EmptyString => false
  | String a EmptyString => Ascii.eqb a c
  | String _ s' => endswith c s'
  end.

(** [c in s]. *)
Fixpoint contains (c : ascii) (s : string) : bool :=
  match s with
  | EmptyString => false
  | String a s' => Ascii.eqb a c || contains c s'
  end.

(** [str.lower], as far as it yields ASCII characters.  The letters A to Z
    go to a to z.  The Kelvin sign U+212A (E2 84 AA in UTF-8) goes to k: it
    is the one character beyond ASCII that Python lower-cases to ASCII
    characters only.  The other characters beyond ASCII are left as they are:
    Python may replace them, by characters that are not all ASCII. *)
Definition lower_ascii (a : ascii) : ascii :=
  let n := nat_of_ascii a in
  if (65 <=? n)%nat && (n <=? 90)%nat then ascii_of_nat (n + 32) else a.

Definition kelvin_sign : string := String "226" (String "132" (String "170" "")).

Definition is_kelvin_sign (a b c : ascii) : bool :=
  String.eqb (String a (String b (String c ""))) kelvin_sign.

Fixpoint lower (s : string) : string :=
  match s with
  | EmptyString => EmptyString
  | String a s' =>
      match s' with
      | String b (String c s'') =>
          if is_kelvin_sign a b c then String "k" (lower s'')
          else String (lower_ascii a) (lower s')
      | _ => String (lower_ascii a) (lower s')
      end
  end.

End PyStr.

(** ** The functions of [os.path] the program calls (posixpath) *)

Module OsPath.
Import PyStr.

Definition sep : ascii := "/"%char.
Definition extsep : ascii := "."%char.

(** [os.path.join(a, b)]. *)
Definition join (a b : string) : string :=
  if startswith sep b then b
  else if (String.eqb a "" || endswith sep a)%bool then a ++ b
  else a ++ String sep b.

(** The loop of [genericpath._splitext] that skips the leading dots of the
    file name: [true] when a character other than the dot stands between
    [filenameIndex] and [dotIndex]; [n] counts the indexes left. *)
Fixpoint has_stem (p : string) (filenameIndex n : nat) : bool :=
  match n with
  | O => false
  | S n' =>
      match String.get filenameIndex p with
      | Some a =>
          if Ascii.eqb a extsep then has_stem p (S filenameIndex) n'
          else true
      | None => true
      end
  end.

(** [os.path.splitext(p)]. *)
Definition splitext (p : string) : string * string :=
  let sepIndex := rfind sep p in
  let dotIndex := rfind extsep p in
  if (sepIndex <? dotIndex)%Z then
    let filenameIndex := (sepIndex + 1)%Z in
    if has_stem p (Z.to_nat filenameIndex) (Z.to_nat (dotIndex - filenameIndex))
    then (take_str (Z.to_nat dotIndex) p, drop_str (Z.to_nat dotIndex) p)
    else (p, "")
  else (p, "").

(** [os.path.basename(p)]. *)
Definition basename (p : string) : string :=
  drop_str (Z.to_nat (rfind sep p + 1)) p.

End OsPath.

Import PyStr OsPath.

(** ** Constants of the program *)

Definition EXT_WHITELIST : gset string :=
  list_to_set [".bmp"; ".gif"; ".png"; ".jpg"; ".jpeg"; ".mkv"; ".webm"; ".mp4"].

Definition QUIT_CHOICE : string := "Quit sorting".

(** ** What the program prints and does, in order *)

Inductive event : Type :=
  | FoundMedia (p : string)             (* print 'Found media file' *)
  | FoundTarget (p : string)            (* print 'Found target subdirectory' *)
  | SourceNotDir (p : string)           (* print 'Source is not a directory, aborting' *)
  | TargetNotDir (p : string)           (* print 'Target is not a directory, aborting' *)
  | NothingToSort                       (* print 'Source or target directories are empty.' *)
  | Play (f : string)                   (* mpv starts the entry under the cursor *)
  | Progress (remaining total : nat)    (* print 'Progress' *)
  | Prompt (f : string) (pool : list string) (answer : option (list string))
                                        (* the iterfzf call made for [f] and its answer *)
  | Copied (f d : string)               (* shutil.copy and print 'Copied' *)
  | Removed (f : string)                (* os.remove and print 'Removed' *)
  | Quitting                            (* print 'Quitting manually.' *)
  | PlayerQuit                          (* player.quit() *)
  | AllSorted.                          (* print 'Done sorting all files.' *)

(** ** Directory trees *)

Inductive node : Type :=
  | File                                (* os.path.isfile *)
  | Other                               (* neither a file nor a directory *)
  | Dir (l : listing)                   (* os.path.isdir, with its os.listdir *)
with listing : Type :=
  | Lnil
  | Lcons (name : string) (n : node) (rest : listing).

Scheme node_listing_ind := Induction for node Sort Prop
  with listing_node_ind := Induction for listing Sort Prop.

Definition isdir (n : node) : bool :=
  match n with Dir _ => true | _ => false end.

Definition isfile (n : node) : bool :=
  match n with File => true | _ => false end.

Fixpoint entries (l : listing) : list (string * node) :=
  match l with
  | Lnil => []
  | Lcons name n rest => (name, n) :: entries rest
  end.

(** The names [os.listdir] can return: not empty, no separator. *)
Definition valid_name (name : string) : bool :=
  negb (String.eqb name "") && negb (contains sep name).

Fixpoint valid_names (l : listing) : bool :=
  match l with
  | Lnil => true
  | Lcons name n rest =>
      valid_name name
      && match n with Dir sub => valid_names sub | _ => true end
      && valid_names rest
  end.

(** Names made of ASCII characters only, at every depth. *)
Definition ascii_name (name : string) : bool :=
  forallb (fun a => (nat_of_ascii a <? 128)%nat) (list_ascii_of_string name).


(** ** The path scanner *)

Definition is_media (sub : string) : bool :=
  let '(_, ext) := splitext sub in
  bool_decide (lower ext ∈ EXT_WHITELIST).

(** [gather_files(current, recursive)], with [l] the listing of [current];
    the result is the returned set and the lines printed. *)
Fixpoint gather_files (current : string) (l : listing) (recursive : bool)
  : gset string * list event :=
  match l with
  | Lnil => (∅, [])
  | Lcons name n rest =>
      let sub := join current name in
      let '(ret1, out1) :=
        match n with
        | Dir sub_listing =>
            if recursive then gather_files sub sub_listing recursive else (∅, [])
        | _ => (∅, [])
        end in
      let '(ret2, out2) :=
        if isfile n && is_media sub then ({[ sub ]}, [FoundMedia sub])
        else (∅, []) in
      let '(ret3, out3) := gather_files current rest recursive in
      (ret1 ∪ ret2 ∪ ret3, out1 ++ out2 ++ out3)
  end.

(** [gather_directories(current)], with [l] the listing of [current]. *)
Fixpoint gather_directories (current : string) (l : listing)
  : gset string * list event :=
  match l with
  | Lnil => (∅, [])
  | Lcons name n rest =>
      let sub := join current name in
      let '(ret1, out1) :=
        match n with
        | Dir sub_listing =>
            let '(sub_dirs, out) := gather_directories sub sub_listing in
            (sub_dirs ∪ {[ sub ]}, out ++ [FoundTarget sub])
        | _ => (∅, [])
        end in
      let '(ret2, out2) := gather_directories current rest in
      (ret1 ∪ ret2, out1 ++ out2)
  end.

(** ** The sorting engine *)

(** The exceptions the modelled calls raise. *)
Inductive exn : Type :=
  | FileNotFoundError (p : string)
  | NotADirectoryError (p : string)
  | SameFileError (p : string)
  | ValueError (x : string)             (* list.remove(x): x not in list *)
  | IndexError                          (* player.playlist[...] out of range *)
  | PlayerError.                        (* playlist_remove without a current entry *)

(** The world the engine acts on: the regular files on disk, the playlist of
    the mpv player with its cursor (-1: no entry is current), and the log. *)
Record state : Type := mkState {
  disk : gset string;
  playlist : list string;
  playlist_pos : Z;
  log : list event
}.

Definition emit (e : event) (st : state) : state :=
  mkState (disk st) (playlist st) (playlist_pos st) (log st ++ [e]).

Definition set_disk (d : gset string) (st : state) : state :=
  mkState d (playlist st) (playlist_pos st) (log st).

(** How a block of the program ends: it falls through with a value, it
    returns from [sort_files], it raises, or it waits for the operator at a
    prompt that the script does not answer. *)
Inductive flow (A : Type) : Type :=
  | Next (a : A)
  | Return
  | Raise (e : exn)
  | Wait.
Arguments Next {A} a.
Arguments Return {A}.
Arguments Raise {A} e.
Arguments Wait {A}.

(** [l[i]] on a Python list. *)
Definition py_getitem {A : Type} (l : list A) (i : Z) : option A :=
  let n := Z.of_nat (length l) in
  if (i <? 0)%Z then
    if (0 <=? n + i)%Z then nth_error l (Z.to_nat (n + i)) else None
  else nth_error l (Z.to_nat i).

(** [l.remove(x)]: drops the first [x]; [None] stands for ValueError. *)
Fixpoint py_remove (x : string) (l : list string) : option (list string) :=
  match l with
  | [] => None
  | y :: l' =>
      if String.eqb y x then Some l'
      else match py_remove x l' with
           | Some r => Some (y :: r)
           | None => None
           end
  end.

(** [x in l] on a Python list. *)
Definition py_in (x : string) (l : list string) : bool :=
  existsb (String.eqb x) l.

(** *** The collaborators *)

(** mpv: appending the files and setting [playlist_pos = 0] starts the first
    entry; an index out of range leaves no entry current. *)
Definition player_load (flist : list string) (st : state) : state :=
  match flist with
  | [] => mkState (disk st) flist (-1) (log st)
  | f :: _ => emit (Play f) (mkState (disk st) flist 0 (log st))
  end.

(** [player.playlist[player.playlist_pos]['filename']]. *)
Definition player_current (st : state) : option string :=
  py_getitem (playlist st) (playlist_pos st).

Fixpoint remove_nth {A : Type} (i : nat) (l : list A) : list A :=
  match i, l with
  | _, [] => []
  | O, _ :: l' => l'
  | S i', x :: l' => x :: remove_nth i' l'
  end.

(** [player.playlist_remove()]: drops the current entry; the entry that
    takes its index starts playing, or none is current any more. *)
Definition playlist_remove (st : state) : flow state :=
  let pos := playlist_pos st in
  if ((0 <=? pos) && (pos <? Z.of_nat (length (playlist st))))%Z then
    let pl := remove_nth (Z.to_nat pos) (playlist st) in
    match nth_error pl (Z.to_nat pos) with
    | Some f => Next (emit (Play f) (mkState (disk st) pl pos (log st)))
    | None => Next (mkState (disk st) pl (-1) (log st))
    end
  else Raise PlayerError.

(** [shutil.copy(src, dst)] for [dst] a directory, which is what the labels
    of [main] are: the copy goes into [dst] under the file name of [src].  A
    missing source and a copy onto itself raise.  A [dst] that is not a
    directory (the library then writes to [dst] itself), two spellings of one
    path and the other I/O failures are outside the model. *)
Definition shutil_copy (src dst : string) (st : state) : flow state :=
  let target := join dst (basename src) in
  if bool_decide (src ∈ disk st) then
    if String.eqb target src then Raise (SameFileError src)
    else Next (set_disk (disk st ∪ {[ target ]}) st)
  else Raise (FileNotFoundError src).

(** [os.remove(path)]. *)
Definition os_remove (path : string) (st : state) : flow state :=
  if bool_decide (path ∈ disk st) then Next (set_disk (disk st ∖ {[ path ]}) st)
  else Raise (FileNotFoundError path).

(** *** [sort_files] *)

(** The [for cho in choice] loop: copy, report, strike the label off the pool. *)
Fixpoint copy_choices (cur_file : string) (choice cur_dirs : list string)
  (st : state) : flow (list string) * state :=
  match choice with
  | [] => (Next cur_dirs, st)
  | cho :: choice' =>
      match shutil_copy cur_file cho st with
      | Next st1 =>
          let st2 := emit (Copied cur_file cho) st1 in
          match py_remove cho cur_dirs with
          | Some cur_dirs' => copy_choices cur_file choice' cur_dirs' st2
          | None => (Raise (ValueError cho), st2)
          end
      | Return => (Return, st)
      | Raise e => (Raise e, st)
      | Wait => (Wait, st)
      end
  end.

(** Why the inner [while] loop was left. *)
Inductive loop_exit : Type :=
  | PoolExhausted                       (* [cur_dirs] is empty *)
  | Cancelled                           (* [choice] is None *)
  | SingleBreak.                        (* [if single: break] *)

(** The inner loop [while cur_dirs and choice != None], entered at its
    condition; [cancelled] tells whether [choice] is None.  The result carries
    the exit, the pool and the answers not yet consumed. *)
Fixpoint decision_loop (single : bool) (cur_file : string) (script : list (option (list string)))
  (cancelled : bool) (cur_dirs : list string) (st : state)
  : flow (loop_exit * list string * list (option (list string))) * state :=
  match cur_dirs with
  | [] => (Next (PoolExhausted, cur_dirs, script), st)
  | _ :: _ =>
      if cancelled then (Next (Cancelled, cur_dirs, script), st)
      else
        match script with
        | [] => (Wait, st)
        | choice :: script' =>
            let st1 := emit (Prompt cur_file cur_dirs choice) st in
            match choice with
            | Some (c :: cs) =>
                if py_in QUIT_CHOICE (c :: cs) then
                  (Return, emit PlayerQuit (emit Quitting st1))
                else
                  match copy_choices cur_file (c :: cs) cur_dirs st1 with
                  | (Next cur_dirs', st2) =>
                      if single then (Next (SingleBreak, cur_dirs', script'), st2)
                      else decision_loop single cur_file script' false cur_dirs' st2
                  | (Return, st2) => (Return, st2)
                  | (Raise e, st2) => (Raise e, st2)
                  | (Wait, st2) => (Wait, st2)
                  end
            | Some [] =>
                if single then (Next (SingleBreak, cur_dirs, script'), st1)
                else decision_loop single cur_file script' false cur_dirs st1
            | None =>
                if single then (Next (SingleBreak, cur_dirs, script'), st1)
                else decision_loop single cur_file script' true cur_dirs st1
            end
        end
  end.

Functional Scheme decision_loop_ind := Induction for decision_loop Sort Prop.

(** How a run of [sort_files] ends. *)
Inductive result : Type :=
  | Finished                            (* every file was sorted *)
  | Quit                                (* the operator chose QUIT_CHOICE *)
  | Crashed (e : exn)                   (* an exception left the program *)
  | Blocked.                            (* waiting at a prompt *)

(** The steps after the inner loop: dequeue, and delete when asked to. *)
Definition advance (delete : bool) (cur_file : string) (st : state)
  : flow unit * state :=
  match playlist_remove st with
  | Next st1 =>
      if delete then
        match os_remove cur_file st1 with
        | Next st2 => (Next tt, emit (Removed cur_file) st2)
        | Return => (Return, st1)
        | Raise e => (Raise e, st1)
        | Wait => (Wait, st1)
        end
      else (Next tt, st1)
  | Return => (Return, st)
  | Raise e => (Raise e, st)
  | Wait => (Wait, st)
  end.

(** One turn of the outer loop [while flist], with [remaining] the length of
    [flist]: the decision loop for the current file, then [advance].  It
    falls through with the answers left for the files to come. *)
Definition sort_one (dlist : list string) (delete single : bool)
  (total_count remaining : nat) (script : list (option (list string))) (st : state)
  : flow (list (option (list string))) * state :=
  match player_current st with
  | None => (Raise IndexError, st)
  | Some cur_file =>
      let cur_dirs := dlist ++ [QUIT_CHOICE] in
      let st0 := emit (Progress remaining total_count) st in
      match decision_loop single cur_file script false cur_dirs st0 with
      | (Next (_, _, script'), st1) =>
          match advance delete cur_file st1 with
          | (Next _, st2) => (Next script', st2)
          | (Return, st2) => (Return, st2)
          | (Raise e, st2) => (Raise e, st2)
          | (Wait, st2) => (Wait, st2)
          end
      | (Return, st1) => (Return, st1)
      | (Raise e, st1) => (Raise e, st1)
      | (Wait, st1) => (Wait, st1)
      end
  end.

(** The outer loop [while flist]. *)
Fixpoint sort_loop (dlist : list string) (delete single : bool) (total_count : nat)
  (flist : list string) (script : list (option (list string))) (st : state)
  : result * state :=
  match flist with
  | [] => (Finished, emit AllSorted (emit PlayerQuit st))
  | _ :: flist' =>
      match sort_one dlist delete single total_count (length flist) script st with
      | (Next script', st') =>
          sort_loop dlist delete single total_count flist' script' st'
      | (Return, st') => (Quit, st')
      | (Raise e, st') => (Crashed e, st')
      | (Wait, st') => (Blocked, st')
      end
  end.

(** [sort_files(flist, dlist, delete, single)] called in the world [st] (its
    disk and what was printed so far), with the operator's answers [script];
    [flist] and [dlist] are given in the order in which Python iterates over
    them.  The player is created here, so the playlist of [st] is not read. *)
Definition sort_files (flist dlist : list string) (delete single : bool)
  (script : list (option (list string))) (st : state) : result * state :=
  let total_count := length flist in
  sort_loop dlist delete single total_count flist script (player_load flist st).

(** ** [main] *)

(** The filesystem as [main] sees it: what lies at a path, if anything. *)
Definition os_path_isdir (stat : string -> option node) (p : string) : bool :=
  match stat p with
  | Some n => isdir n
  | None => false
  end.

Definition os_listdir (stat : string -> option node) (p : string) : flow listing :=
  match stat p with
  | Some (Dir l) => Next l
  | Some _ => Raise (NotADirectoryError p)
  | None => Raise (FileNotFoundError p)
  end.

(** Every regular file of a tree, by its path. *)
Fixpoint all_files (current : string) (l : listing) : gset string :=
  match l with
  | Lnil => ∅
  | Lcons name n rest =>
      let sub := join current name in
      match n with
      | File => {[ sub ]}
      | Other => ∅
      | Dir sub_listing => all_files sub sub_listing
      end ∪ all_files current rest
  end.

Definition files_at (stat : string -> option node) (p : string) : gset string :=
  match stat p with
  | Some (Dir l) => all_files p l
  | _ => ∅
  end.

(** The first half of [main]: the two checks and the two scans.  It falls
    through with [flist] and [dlist]. *)
Definition main_scan (stat : string -> option node) (source target : string)
  (recursive : bool) : flow (gset string * gset string) * state :=
  let st0 := mkState (files_at stat source ∪ files_at stat target) [] (-1) [] in
  let st1 := if os_path_isdir stat source then st0 else emit (SourceNotDir source) st0 in
  let st2 := if os_path_isdir stat target then st1 else emit (TargetNotDir target) st1 in
  match os_listdir stat source with
  | Next ls =>
      let '(flist, out_f) := gather_files source ls recursive in
      let st3 := mkState (disk st2) (playlist st2) (playlist_pos st2) (log st2 ++ out_f) in
      match os_listdir stat target with
      | Next lt =>
          let '(dlist, out_d) := gather_directories target lt in
          (Next (flist, dlist),
           mkState (disk st3) (playlist st3) (playlist_pos st3) (log st3 ++ out_d))
      | Return => (Return, st3)
      | Raise e => (Raise e, st3)
      | Wait => (Wait, st3)
      end
  | Return => (Return, st2)
  | Raise e => (Raise e, st2)
  | Wait => (Wait, st2)
  end.

(** How a call of [main] ends. *)
Inductive main_result : Type :=
  | Sorted (r : result)                 (* [sort_files] was called and ended with [r] *)
  | NoCandidates                        (* nothing to sort, [sort_files] not called *)
  | ScanCrashed (e : exn)               (* an exception left a gather function *)
  | ScanStopped.                        (* a gather function did not fall through *)

(** [main(source, target, recursive=..., delete=..., single=...)]. *)
Definition main (stat : string -> option node) (source target : string)
  (recursive delete single : bool) (script : list (option (list string)))
  : main_result * state :=
  match main_scan stat source target recursive with
  | (Next (flist, dlist), st) =>
      if bool_decide (flist ≠ ∅) && bool_decide (dlist ≠ ∅) then
        let '(r, st') :=
          sort_files (elements flist) (elements dlist) delete single script st in
        (Sorted r, st')
      else (NoCandidates, emit NothingToSort st)
  | (Raise e, st) => (ScanCrashed e, st)
  | (_, st) => (ScanStopped, st)
  end.

(** ** The words of the specification *)

(** [walk root l p n]: below the directory [root], whose listing is [l], the
    path [p] leads to the node [n], at any depth. *)
Inductive walk : string -> listing -> string -> node -> Prop :=
  | walk_entry current l name n :
      (name, n) ∈ entries l -> walk current l (join current name) n
  | walk_below current l name sub p n :
      (name, Dir sub) ∈ entries l -> walk (join current name) sub p n ->
      walk current l p n.

(** The strict descendant directories of [root], at every depth. *)
Definition strict_descendant_dir (root : string) (l : listing) (p : string) : Prop :=
  exists sub, walk root l p (Dir sub).


(** The letters, each in upper case beside its lower case. *)
Definition letter_cases : list (ascii * ascii) :=
  zip (list_ascii_of_string "ABCDEFGHIJKLMNOPQRSTUVWXYZ")
      (list_ascii_of_string "abcdefghijklmnopqrstuvwxyz").

(** The same character, or the same letter in its other case. *)
Definition same_letter (a b : ascii) : Prop :=
  a = b \/ (a, b) ∈ letter_cases \/ (b, a) ∈ letter_cases.

(** Two strings that are equal when the case of the letters is ignored. *)
Fixpoint equal_ignoring_case (s t : string) : Prop :=
  match s, t with
  | EmptyString, EmptyString => True
  | String a s', String b t' => same_letter a b /\ equal_ignoring_case s' t'
  | _, _ => False
  end.



(** [concerns g e]: the event [e] plays, offers, copies or deletes the file [g]. *)
Definition concerns (g : string) (e : event) : bool :=
  match e with
  | Play f | Prompt f _ _ | Copied f _ | Removed f => String.eqb f g
  | _ => false
  end.

(** An answer that carries QUIT_CHOICE. *)
Definition quit_answer (e : event) : bool :=
  match e with
  | Prompt _ _ (Some l) => py_in QUIT_CHOICE l
  | _ => false
  end.

Definition is_prompt (e : event) : bool :=
  match e with Prompt _ _ _ => true | _ => false end.

(** The contract of the fuzzy finder: an answer selects labels among those it
    was given, each at most once. *)
Definition honest (e : event) : Prop :=
  match e with
  | Prompt _ pool (Some l) => NoDup l /\ Forall (fun x => x ∈ pool) l
  | _ => True
  end.

#[global] Instance honest_dec (e : event) : Decision (honest e).
Proof. destruct e as [| | | | | | |f pool [l|]| | | | |]; cbn; apply _. Defined.

(** [never_twice gone evs]: along [evs], no copy goes to a label of [gone] or
    to a label copied to before, and no prompt offers such a label. *)
Fixpoint never_twice (gone : list string) (evs : list event) : Prop :=
  match evs with
  | [] => True
  | Copied _ d :: evs' => (d ∉ gone) /\ never_twice (d :: gone) evs'
  | Prompt _ pool _ :: evs' => (forall d, d ∈ gone -> d ∉ pool) /\ never_twice gone evs'
  | _ :: evs' => never_twice gone evs'
  end.

(** The copies of a log, as (file, directory) pairs. *)
Fixpoint copies (evs : list event) : list (string * string) :=
  match evs with
  | [] => []
  | Copied f d :: evs' => (f, d) :: copies evs'
  | _ :: evs' => copies evs'
  end.

(** What a run appended to the log. *)
Definition new_events (st st' : state) : list event :=
  drop (length (log st)) (log st').

(** The invariant of the outer loop: the playlist is the file list and the
    cursor is on its head. *)
Definition in_step (flist : list string) (st : state) : Prop :=
  playlist st = flist /\ (flist <> [] -> playlist_pos st = 0%Z).

(** What [join] puts in front of a valid name. *)
Definition join_prefix (a : string) : string :=
  if (String.eqb a "" || endswith sep a)%bool then a else a ++ String sep "".

(** The events of one decision loop for the file [f]. *)
Definition round_event (f : string) (e : event) : Prop :=
  match e with
  | Prompt g _ _ | Copied g _ => g = f
  | Quitting | PlayerQuit => True
  | _ => False
  end.

(** [round_trace f st st' evs]: from [st] to [st'] the program appended the
    events [evs], all of a decision loop for [f]; it left the playlist alone
    and removed no file. *)
Definition round_trace (f : string) (st st' : state) (evs : list event) : Prop :=
  log st' = log st ++ evs
  /\ playlist st' = playlist st /\ playlist_pos st' = playlist_pos st
  /\ disk st ⊆ disk st'
  /\ Forall (round_event f) evs.

(** A prompt that offers QUIT_CHOICE. *)
Definition offers_quit (e : event) : Prop :=
  match e with
  | Prompt _ pool _ => QUIT_CHOICE ∈ pool
  | _ => True
  end.

(** A pool in which no directory label stands twice. *)
Definition once (pool : list string) : Prop :=
  NoDup (filter (fun x => x <> QUIT_CHOICE) pool).

(** ** Projections of the log and of the tree *)

(** The files mpv started, in order. *)
Fixpoint plays (evs : list event) : list string :=
  match evs with
  | [] => []
  | Play f :: evs' => f :: plays evs'
  | _ :: evs' => plays evs'
  end.

(** The files deleted, in order. *)
Fixpoint removals (evs : list event) : list string :=
  match evs with
  | [] => []
  | Removed f :: evs' => f :: removals evs'
  | _ :: evs' => removals evs'
  end.

(** The progress lines, in order. *)
Fixpoint progress (evs : list event) : list (nat * nat) :=
  match evs with
  | [] => []
  | Progress n total :: evs' => (n, total) :: progress evs'
  | _ :: evs' => progress evs'
  end.

(** How many times the player was quit. *)
Fixpoint quits (evs : list event) : nat :=
  match evs with
  | [] => 0
  | PlayerQuit :: evs' => S (quits evs')
  | _ :: evs' => quits evs'
  end.

(** [k; k-1; ...; 1]. *)
Fixpoint countdown (k : nat) : list nat :=
  match k with
  | O => []
  | S k' => k :: countdown k'
  end.

(** Where [shutil.copy] puts the copy of a file into a directory: under the
    name of the file. *)
Definition copy_target (p : string * string) : string :=
  join p.2 (basename p.1).

(** The events of the rounds of a decision loop for [f] that started with
    [pool]: prompts for [f] that offer labels of [pool], and copies of [f] to
    labels other than QUIT_CHOICE. *)
Definition ask_event (f : string) (pool : list string) (e : event) : Prop :=
  match e with
  | Prompt g p _ => g = f /\ p ⊆+ pool
  | Copied g d => g = f /\ d <> QUIT_CHOICE
  | _ => False
  end.

(** What a block that returns on QUIT_CHOICE appends last. *)
Definition quit_ending {A : Type} (fl : flow A) : list event :=
  match fl with
  | Return => [Quitting; PlayerQuit]
  | _ => []
  end.

(** What mpv starts when the head of the playlist is removed. *)
Definition next_play (rest : list string) : list event :=
  match rest with
  | g :: _ => [Play g]
  | [] => []
  end.

(** The prompts and copies of a run over the queue [flist] with the labels
    [pool]: for files of the queue only; prompts offer labels of [pool],
    copies go to labels other than QUIT_CHOICE. *)
Definition queue_event (flist pool : list string) (e : event) : Prop :=
  match e with
  | Prompt g p _ => g ∈ flist /\ p ⊆+ pool
  | Copied g d => g ∈ flist /\ d <> QUIT_CHOICE
  | _ => True
  end.

(** The events of a run of [main] over the source tree [ls] and the target
    tree [lt]: the files played, offered, copied and deleted are media files
    of the source tree; a prompt offers QUIT_CHOICE and directories below the
    target; no copy goes to QUIT_CHOICE. *)
Definition scanned_event (source : string) (ls : listing) (target : string)
  (lt : listing) (e : event) : Prop :=
  match e with
  | Play g | Removed g => walk source ls g File /\ is_media g = true
  | Prompt g p _ =>
      (walk source ls g File /\ is_media g = true)
      /\ forall d, d ∈ p -> d = QUIT_CHOICE \/ strict_descendant_dir target lt d
  | Copied g d => (walk source ls g File /\ is_media g = true) /\ d <> QUIT_CHOICE
  | _ => True
  end.

(** Every copy of [evs] goes to a label of an answer given for its file. *)
Definition asked (evs : list event) : Prop :=
  forall f d, Copied f d ∈ evs ->
              exists pool l, Prompt f pool (Some l) ∈ evs /\ d ∈ l.

(** The exceptions of the file operations and of [list.remove]. *)
Definition engine_error (e : exn) : Prop :=
  match e with
  | FileNotFoundError _ | SameFileError _ | ValueError _ => True
  | _ => False
  end.

(** No two entries of a directory have the same name, at any depth. *)
Fixpoint distinct_names (l : listing) : bool :=
  match l with
  | Lnil => true
  | Lcons name n rest =>
      negb (py_in name (map fst (entries rest)))
      && match n with Dir sub => distinct_names sub | _ => true end
      && distinct_names rest
  end.

(** ** Sample inputs *)

#[global] Instance event_eq_dec : EqDecision event.
Proof. solve_decision. Defined.

#[global] Instance exn_eq_dec : EqDecision exn.
Proof. solve_decision. Defined.

(** A source directory [s] with two media files and a target directory [t]
    with two subdirectories. *)
Definition sample_state : state :=
  mkState {[ "s/a.png"; "s/b.mp4" ]} [] (-1) [].

Definition sample_files : list string := ["s/a.png"; "s/b.mp4"].
Definition sample_dirs : list string := ["t/x"; "t/y"].

Definition sample_tree : listing :=
  Lcons "a.png" File
    (Lcons "d" (Dir (Lcons "b.MP4" File (Lcons "e" (Dir Lnil) Lnil)))
       (Lcons "c.txt" File (Lcons "F.JPeG" File Lnil))).

(** A target directory with two empty subdirectories, and a filesystem in
    which [s] is the sample source and [t] that target. *)
Definition sample_target : listing :=
  Lcons "x" (Dir Lnil) (Lcons "y" (Dir Lnil) Lnil).

Definition sample_world (p : string) : option node :=
  if String.eqb p "s" then Some (Dir sample_tree)
  else if String.eqb p "t" then Some (Dir sample_target)
  else None.

(** A filesystem in which [s] is a directory and [t] is a regular file. *)
Definition sample_stat (p : string) : option node :=
  if String.eqb p "s" then Some (Dir sample_tree)
  else if String.eqb p "t" then Some File
  else None.

(** * Properties *)

(** ** Strings and paths *)

Section PathFacts.

Lemma append_cons (x : ascii) (a b : string) :
  (String x a ++ b)%string = String x (a ++ b).
Proof. reflexivity. Qed.

Lemma append_nil (b : string) : (EmptyString ++ b)%string = b.
Proof. reflexivity. Qed.

Lemma length_append (a b : string) :
  String.length (a ++ b) = String.length a + String.length b.
Proof.
  induction a as [|c a IH]; [reflexivity |].
  rewrite append_cons. simpl. now rewrite IH.
Qed.

Lemma append_inj_r (a b c : string) : (a ++ b = a ++ c)%string -> b = c.
Proof.
  induction a as [|x a IH]; [trivial |].
  rewrite !append_cons. intros H. injection H. exact IH.
Qed.

Lemma append_assoc (a b c : string) : ((a ++ b) ++ c = a ++ (b ++ c))%string.
Proof.
  induction a as [|x a IH]; [reflexivity |].
  rewrite !append_cons. now rewrite IH.
Qed.








Lemma valid_name_inv (name : string) :
  valid_name name = true -> name <> "" /\ contains sep name = false.
Proof.
  unfold valid_name. intros [H1 H2]%andb_true_iff.
  apply negb_true_iff in H1, H2. split; [|exact H2].
  intros ->. discriminate.
Qed.

Lemma startswith_contains (c : ascii) (s : string) :
  contains c s = false -> startswith c s = false.
Proof. destruct s as [|a s]; simpl; [reflexivity |]. now intros [? ?]%orb_false_iff. Qed.

Lemma join_valid (a name : string) :
  valid_name name = true -> join a name = (join_prefix a ++ name)%string.
Proof.
  intros [_ Hs]%valid_name_inv. unfold join, join_prefix.
  rewrite (startswith_contains _ _ Hs).
  destruct (String.eqb a "" || endswith sep a)%bool; [reflexivity |].
  now rewrite append_assoc.
Qed.



Lemma contains_append (c : ascii) (a b : string) :
  contains c (a ++ b) = contains c a || contains c b.
Proof.
  induction a as [|x a IH]; [reflexivity |].
  rewrite append_cons. simpl. rewrite IH. now rewrite orb_assoc.
Qed.

Lemma endswith_contains (c : ascii) (s : string) :
  endswith c s = true -> contains c s = true.
Proof.
  induction s as [|a s IH]; [discriminate |].
  destruct s as [|b s].
  - simpl. intros ->. reflexivity.
  - intros H. change (endswith c (String a (String b s))) with (endswith c (String b s)) in H.
    change (contains c (String a (String b s)))
      with (Ascii.eqb a c || contains c (String b s)).
    rewrite (IH H). apply orb_true_r.
Qed.

Lemma endswith_append (c : ascii) (a b : string) :
  b <> "" -> endswith c (a ++ b) = endswith c b.
Proof.
  intros Hb. induction a as [|x a IH]; [reflexivity |].
  rewrite append_cons. destruct (a ++ b)%string as [|y r] eqn:E.
  - destruct a; [rewrite append_nil in E; contradiction | discriminate E].
  - exact IH.
Qed.

(** Below a joined path, [join] goes on with a separator. *)
Lemma join_prefix_join (a name : string) :
  valid_name name = true ->
  join_prefix (join a name) = (join_prefix a ++ (name ++ String sep ""))%string.
Proof.
  intros Hv. destruct (valid_name_inv _ Hv) as [Hne Hs].
  rewrite (join_valid _ _ Hv). unfold join_prefix at 1.
  rewrite (endswith_append _ _ _ Hne).
  destruct (endswith sep name) eqn:He.
  { apply endswith_contains in He. congruence. }
  destruct (String.eqb_spec (join_prefix a ++ name) "") as [E|_].
  - apply (f_equal String.length) in E. rewrite length_append in E.
    destruct name; [contradiction | simpl in E; lia].
  - simpl. now rewrite append_assoc.
Qed.

Lemma join_longer (a name : string) :
  valid_name name = true -> String.length a < String.length (join a name).
Proof.
  intros Hv. destruct (valid_name_inv _ Hv) as [Hne _].
  rewrite (join_valid _ _ Hv), length_append. unfold join_prefix.
  assert (0 < String.length name) by (destruct name; [contradiction | simpl; lia]).
  destruct (String.eqb a "" || endswith sep a)%bool; [lia |].
  rewrite length_append. lia.
Qed.

End PathFacts.

(** ** The path scanner *)

Section Scanner.

Lemma gather_files_cons (current name : string) (n : node) (rest : listing)
  (recursive : bool) :
  (gather_files current (Lcons name n rest) recursive).1 =
  match n with
  | Dir sub => if recursive then (gather_files (join current name) sub recursive).1 else ∅
  | _ => ∅
  end
  ∪ (if isfile n && is_media (join current name) then {[ join current name ]} else ∅)
  ∪ (gather_files current rest recursive).1.
Proof.
  cbn [gather_files].
  destruct (gather_files current rest recursive) as [r3 o3].
  destruct (isfile n && is_media (join current name));
    destruct n as [| |sub]; try reflexivity;
    destruct recursive; try reflexivity;
    destruct (gather_files (join current name) sub true); reflexivity.
Qed.

Lemma gather_directories_cons (current name : string) (n : node) (rest : listing) :
  (gather_directories current (Lcons name n rest)).1 =
  match n with
  | Dir sub => (gather_directories (join current name) sub).1 ∪ {[ join current name ]}
  | _ => ∅
  end
  ∪ (gather_directories current rest).1.
Proof.
  cbn [gather_directories].
  destruct (gather_directories current rest) as [r2 o2].
  destruct n as [| |sub]; try reflexivity.
  destruct (gather_directories (join current name) sub); reflexivity.
Qed.

Lemma valid_names_cons (name : string) (n : node) (rest : listing) :
  valid_names (Lcons name n rest) = true ->
  valid_name name = true
  /\ match n with Dir sub => valid_names sub = true | _ => True end
  /\ valid_names rest = true.
Proof.
  cbn [valid_names]. intros [[H1 H2]%andb_true_iff H3]%andb_true_iff.
  repeat split; try assumption. destruct n; trivial.
Qed.

Lemma valid_names_entry (l : listing) (name : string) (n : node) :
  valid_names l = true -> (name, n) ∈ entries l ->
  valid_name name = true
  /\ match n with Dir sub => valid_names sub = true | _ => True end.
Proof.
  induction l as [|name' n' rest IH]; cbn [entries]; intros Hv Hin.
  - inversion Hin.
  - apply valid_names_cons in Hv as (H1 & H2 & H3).
    apply elem_of_cons in Hin as [E|Hin]; [|now apply IH].
    injection E as -> ->. now split.
Qed.





Lemma same_letter_ascii (a b : ascii) :
  same_letter a b -> (nat_of_ascii b <? 128)%nat = true ->
  (nat_of_ascii a <? 128)%nat = true.
Proof.
  intros [->|[H|H]]; [auto | |]; intros _; vm_compute in H;
    repeat (apply elem_of_cons in H as [[= -> ->]|H]; [reflexivity |]);
    inversion H.
Qed.


Lemma ascii_name_cons (a : ascii) (s : string) :
  ascii_name (String a s) = true <->
  (nat_of_ascii a <? 128)%nat = true /\ ascii_name s = true.
Proof. unfold ascii_name. cbn [list_ascii_of_string forallb]. apply andb_true_iff. Qed.

Lemma equal_ignoring_case_ascii (s : string) :
  forall t, equal_ignoring_case s t -> ascii_name t = true -> ascii_name s = true.
Proof.
  induction s as [|a s IH]; intros [|b t]; cbn [equal_ignoring_case]; try done.
  intros [Hab Hst] [Hb Ht]%ascii_name_cons. apply ascii_name_cons.
  split; [now apply (same_letter_ascii a b) | now apply (IH t)].
Qed.








Lemma walk_nil (current p : string) (n : node) : ~ walk current Lnil p n.
Proof. intros H. inversion H as [? ? ? ? Hin|? ? ? ? ? ? Hin]; inversion Hin. Qed.

Lemma walk_cons (current name p : string) (n m : node) (rest : listing) :
  walk current (Lcons name n rest) p m <->
  (p = join current name /\ m = n)
  \/ (exists sub, n = Dir sub /\ walk (join current name) sub p m)
  \/ walk current rest p m.
Proof.
  split.
  - intros H. inversion H as [? ? name' ? Hin|? ? name' sub ? ? Hin Hw]; subst;
      cbn [entries] in Hin; apply elem_of_cons in Hin as [E|Hin].
    + injection E as -> <-. now left.
    + right; right. now apply walk_entry.
    + injection E as -> <-. right; left. now exists sub.
    + right; right. now apply walk_below with name' sub.
  - intros [[-> ->]|[(sub & -> & Hw)|Hw]].
    + apply walk_entry. left.
    + apply walk_below with name sub; [left | exact Hw].
    + inversion Hw as [? ? name' ? Hin|? ? name' sub ? ? Hin Hw']; subst.
      * apply walk_entry. now right.
      * apply walk_below with name' sub; [now right | exact Hw'].
Qed.

(** [gather_directories] finds the directories of every depth. *)
Lemma gather_directories_walk (l : listing) :
  forall root p,
    p ∈ (gather_directories root l).1 <-> strict_descendant_dir root l p.
Proof.
  unfold strict_descendant_dir.
  induction l as [| |sub IHsub| |name n IHn rest IHrest]
    using listing_node_ind
    with (P := fun n => match n with
                        | Dir sub => forall root p,
                            p ∈ (gather_directories root sub).1 <->
                            exists s, walk root sub p (Dir s)
                        | _ => True
                        end); try exact I.
  - exact IHsub.
  - intros root p. cbn. split; [intros H; now apply not_elem_of_empty in H |].
    intros [s Hw]. now apply walk_nil in Hw.
  - intros root p. rewrite gather_directories_cons. split.
    + intros [Hhere|Hin]%elem_of_union.
      * destruct n as [| |sub]; try now apply not_elem_of_empty in Hhere.
        apply elem_of_union in Hhere as [Hdeep|Hsub%elem_of_singleton].
        -- apply IHn in Hdeep as [s Hw]. exists s. apply walk_cons.
           right; left. now exists sub.
        -- subst p. exists sub. apply walk_cons. now left.
      * apply IHrest in Hin as [s Hw]. exists s. apply walk_cons. now right; right.
    + intros [s [[-> <-]|[(sub & -> & Hw)|Hw]]%walk_cons].
      * apply elem_of_union_l, elem_of_union_r, elem_of_singleton. reflexivity.
      * apply elem_of_union_l, elem_of_union_l, IHn. now exists s.
      * apply elem_of_union_r, IHrest. now exists s.
Qed.

(** Every path found below a directory is longer than the path of the
    directory, and starts with what [join] puts in front of a name. *)
Lemma walk_shape (current : string) (l : listing) (p : string) (n : node) :
  walk current l p n -> valid_names l = true ->
  String.length current < String.length p
  /\ exists name rest, valid_name name = true
                       /\ p = (join_prefix current ++ (name ++ rest))%string.
Proof.
  induction 1 as [current l name n Hin|current l name sub p n Hin Hw IH]; intros Hv.
  - destruct (valid_names_entry _ _ _ Hv Hin) as [Hname _].
    split; [now apply join_longer |].
    exists name, ""%string. split; [assumption |].
    rewrite (join_valid _ _ Hname). f_equal.
    clear. induction name as [|c name IH]; [reflexivity |].
    rewrite append_cons. now rewrite <- IH.
  - destruct (valid_names_entry _ _ _ Hv Hin) as [Hname Hsub].
    destruct (IH Hsub) as (Hlen & name' & rest & Hname' & ->).
    split; [pose proof (join_longer current name Hname); lia |].
    exists name, (String sep "" ++ (name' ++ rest))%string. split; [assumption |].
    rewrite (join_prefix_join _ _ Hname). now rewrite !append_assoc.
Qed.

End Scanner.

(** ** The sorting engine *)

Section Pool.

Lemma py_in_iff (x : string) (l : list string) : py_in x l = true <-> x ∈ l.
Proof.
  unfold py_in. rewrite existsb_exists. split.
  - intros (y & Hin & ->%String.eqb_eq). now apply list_elem_of_In.
  - intros Hin. exists x. split; [now apply list_elem_of_In | apply String.eqb_refl].
Qed.

Lemma py_in_false (x : string) (l : list string) : py_in x l = false <-> x ∉ l.
Proof.
  rewrite <- py_in_iff. destruct (py_in x l); split; congruence.
Qed.

(** [l.remove(x)] takes one [x] out of [l]. *)
Lemma py_remove_Some (x : string) (l l' : list string) :
  py_remove x l = Some l' -> l ≡ₚ x :: l'.
Proof.
  revert l'; induction l as [|y l IH]; intros l'; cbn [py_remove]; [discriminate |].
  destruct (String.eqb_spec y x) as [->|Hne].
  - intros [= ->]. reflexivity.
  - destruct (py_remove x l) as [r|]; [|discriminate].
    intros [= <-]. rewrite (IH r eq_refl). apply Permutation_swap.
Qed.

Lemma py_remove_elem (x : string) (l : list string) :
  x ∈ l -> exists l', py_remove x l = Some l'.
Proof.
  induction l as [|y l IH]; [intros H; inversion H |].
  cbn [py_remove]. destruct (String.eqb_spec y x) as [->|Hne]; [eauto |].
  intros [E|Hin]%elem_of_cons; [congruence |].
  destruct (IH Hin) as [r ->]. eauto.
Qed.

End Pool.

Section DecisionLoop.

Lemma copy_choices_spec (cur_file : string) (choice : list string) :
  forall cur_dirs st fl st',
    copy_choices cur_file choice cur_dirs st = (fl, st') ->
    exists done todo,
      choice = done ++ todo
      /\ log st' = log st ++ map (Copied cur_file) done
      /\ playlist st' = playlist st /\ playlist_pos st' = playlist_pos st
      /\ disk st ⊆ disk st'
      /\ match fl with
         | Next cur_dirs' => todo = [] /\ cur_dirs ≡ₚ done ++ cur_dirs'
         | Raise _ => True
         | _ => False
         end.
Proof.
  induction choice as [|cho choice IH]; intros cur_dirs st fl st'; cbn [copy_choices].
  - intros [= <- <-]. exists [], []. cbn [map app]. rewrite app_nil_r. split_and!; done.
  - unfold shutil_copy. case_bool_decide as Hsrc.
    2:{ intros [= <- <-]. exists [], (cho :: choice). cbn [map app]. rewrite app_nil_r. split_and!; done. }
    destruct (String.eqb (join cho (basename cur_file)) cur_file).
    { intros [= <- <-]. exists [], (cho :: choice). cbn [map app]. rewrite app_nil_r. split_and!; done. }
    destruct (py_remove cho cur_dirs) as [cur_dirs1|] eqn:Hrm.
    2:{ intros [= <- <-]. exists [cho], choice. cbn. split_and!; try done.
        apply union_subseteq_l. }
    intros Hrec. apply IH in Hrec as (done & todo & -> & Hlog & Hpl & Hpos & Hdisk & Hfl).
    exists (cho :: done), todo. cbn in *. rewrite Hlog, <- app_assoc.
    split_and!; try done.
    { etrans; [apply union_subseteq_l | exact Hdisk]. }
    destruct fl as [cur_dirs'| | |]; auto. destruct Hfl as [-> Hperm].
    split; [reflexivity |]. rewrite (py_remove_Some _ _ _ Hrm). now rewrite Hperm.
Qed.

(** The copy loop ends by falling through or by an exception: the cases in
    which it returns or waits do not arise. *)
Ltac copy_never_returns :=
  match goal with
  | H : copy_choices _ _ _ _ = (Return, _) |- _ =>
      apply copy_choices_spec in H as (? & ? & _ & _ & _ & _ & _ & [])
  | H : copy_choices _ _ _ _ = (Wait, _) |- _ =>
      apply copy_choices_spec in H as (? & ? & _ & _ & _ & _ & _ & [])
  end.

Lemma round_trace_nil (f : string) (st : state) : round_trace f st st [].
Proof. unfold round_trace. rewrite app_nil_r. split_and!; done. Qed.

Lemma round_trace_emit (f : string) (e : event) (st : state) :
  round_event f e -> round_trace f st (emit e st) [e].
Proof. intros He. unfold round_trace. cbn. split_and!; try done. now constructor. Qed.

Lemma round_trace_app (f : string) (st st1 st2 : state) (evs1 evs2 : list event) :
  round_trace f st st1 evs1 -> round_trace f st1 st2 evs2 ->
  round_trace f st st2 (evs1 ++ evs2).
Proof.
  intros (L1 & P1 & Q1 & D1 & F1) (L2 & P2 & Q2 & D2 & F2). unfold round_trace.
  rewrite L2, L1, app_assoc, P2, Q2. split_and!; try done.
  - now transitivity (disk st1).
  - now apply Forall_app.
Qed.

Lemma round_event_prompt (f : string) (pool : list string)
  (answer : option (list string)) : round_event f (Prompt f pool answer).
Proof. reflexivity. Qed.

Create HintDb trace.
#[local] Hint Resolve round_trace_nil round_trace_emit round_trace_app
  round_event_prompt : trace.

Lemma copy_choices_trace (cur_file : string) (choice cur_dirs : list string)
  (st st' : state) (fl : flow (list string)) :
  copy_choices cur_file choice cur_dirs st = (fl, st') ->
  exists done, round_trace cur_file st st' (map (Copied cur_file) done).
Proof.
  intros (done & todo & _ & Hlog & Hpl & Hpos & Hdisk & _)%copy_choices_spec.
  exists done. unfold round_trace. split_and!; try done.
  apply Forall_forall. intros e (d & -> & _)%list_elem_of_fmap. reflexivity.
Qed.

Lemma no_quit_in_copies (f : string) (done : list string) :
  Forall (fun e => quit_answer e = false) (map (Copied f) done).
Proof. induction done as [|d done IH]; now constructor. Qed.

(** The decision loop appends its own events only, and an answer with
    QUIT_CHOICE is the last one it asks for. *)
Lemma decision_loop_frame (single : bool) (f : string) (script : list (option (list string)))
  (cancelled : bool) (pool : list string) (st : state) :
  let res := decision_loop single f script cancelled pool st in
  exists evs,
    round_trace f st res.2 evs
    /\ match res.1 with
       | Return =>
           exists evs0 pool' l,
             evs = evs0 ++ [Prompt f pool' (Some l); Quitting; PlayerQuit]
             /\ QUIT_CHOICE ∈ l
             /\ Forall (fun e => quit_answer e = false) evs0
       | _ => Forall (fun e => quit_answer e = false) evs
       end.
Proof.
  cbv zeta.
  functional induction (decision_loop single f script cancelled pool st); cbn [fst snd].
  all: try match goal with
       | IH : exists _ : list event, _ |- _ =>
           destruct IH as (evs & Htr & Hquit)
       end.
  all: try copy_never_returns.
  all: try match goal with
       | H : copy_choices _ _ _ _ = _ |- _ =>
           pose proof H as (done & Hcopy)%copy_choices_trace
       end.
  - exists []. split; [auto with trace | constructor].
  - exists []. split; [auto with trace | constructor].
  - exists []. split; [auto with trace | constructor].
  - exists [Prompt cur_file (_x :: _x0) (Some [])].
    split; [auto with trace | now repeat constructor].
  - exists ([Prompt cur_file (_x :: _x0) (Some [])] ++ evs). split.
    + eauto with trace.
    + destruct (decision_loop _ _ _ _ _ _).1; try (now constructor).
      destruct Hquit as (evs0 & pool' & l & -> & Hl & Hnq).
      exists (Prompt cur_file (_x :: _x0) (Some []) :: evs0), pool', l.
      split_and!; [reflexivity | exact Hl | now constructor].
  - exists ([Prompt cur_file (_x :: _x0) (Some (c :: cs))] ++ [Quitting] ++ [PlayerQuit]).
    split.
    + repeat (eapply round_trace_app; [now apply round_trace_emit |]).
      now apply round_trace_emit.
    + exists [], (_x :: _x0), (c :: cs).
      split_and!; [reflexivity | now apply py_in_iff | constructor].
  - exists ([Prompt cur_file (_x :: _x0) (Some (c :: cs))] ++ map (Copied cur_file) done).
    split.
    + eauto with trace.
    + constructor; [exact e4 | apply no_quit_in_copies].
  - exists ([Prompt cur_file (_x :: _x0) (Some (c :: cs))]
            ++ map (Copied cur_file) done ++ evs).
    split.
    + eauto with trace.
    + destruct (decision_loop _ _ _ _ _ _).1.
      2:{ destruct Hquit as (evs0 & pool' & l & -> & Hl & Hnq).
          exists ([Prompt cur_file (_x :: _x0) (Some (c :: cs))]
                  ++ map (Copied cur_file) done ++ evs0), pool', l.
          split_and!; [now rewrite <- !app_assoc | exact Hl |].
          constructor; [exact e4 |]. apply Forall_app. split; [apply no_quit_in_copies | exact Hnq]. }
      all: constructor; [exact e4 |]; apply Forall_app;
        split; [apply no_quit_in_copies | exact Hquit].
  - exists ([Prompt cur_file (_x :: _x0) (Some (c :: cs))] ++ map (Copied cur_file) done).
    split.
    + eauto with trace.
    + constructor; [exact e4 | apply no_quit_in_copies].
  - exists [Prompt cur_file (_x :: _x0) None].
    split; [now apply round_trace_emit | now repeat constructor].
  - exists ([Prompt cur_file (_x :: _x0) None] ++ evs). split.
    + eauto with trace.
    + destruct (decision_loop _ _ _ _ _ _).1; try (now constructor).
      destruct Hquit as (evs0 & pool' & l & -> & Hl & Hnq).
      exists (Prompt cur_file (_x :: _x0) None :: evs0), pool', l.
      split_and!; [reflexivity | exact Hl | now constructor].
Qed.

(** The decision loop never strikes QUIT_CHOICE off the pool. *)
Lemma decision_loop_keeps_quit (single : bool) (f : string)
  (script : list (option (list string))) (cancelled : bool) (pool : list string)
  (st : state) :
  QUIT_CHOICE ∈ pool ->
  let res := decision_loop single f script cancelled pool st in
  (exists evs, log res.2 = log st ++ evs /\ Forall offers_quit evs)
  /\ match res.1 with
     | Next (ex, pool', _) =>
         QUIT_CHOICE ∈ pool'
         /\ (ex = Cancelled \/ (ex = SingleBreak /\ single = true))
     | _ => True
     end.
Proof.
  cbv zeta.
  functional induction (decision_loop single f script cancelled pool st);
    cbn [fst snd]; intros Hq.
  all: try copy_never_returns.
  all: try match goal with
       | H : copy_choices _ _ _ _ = _ |- _ =>
           pose proof H as (done & todo & Hsplit & Hlog & _ & _ & _ & Hfl)%copy_choices_spec;
           cbn [log emit] in Hlog
       end.
  all: try match goal with
       | H : copy_choices _ _ _ _ = (Next _, _) |- _ =>
           destruct Hfl as [-> Hperm]; rewrite app_nil_r in Hsplit; subst done;
           assert (QUIT_CHOICE ∈ cur_dirs') as Hq'
             by (rewrite Hperm in Hq; apply elem_of_app in Hq as [Hq|Hq];
                 [now apply py_in_false in Hq | exact Hq])
       end.
  all: try match goal with
       | IH : _ -> (exists _ : list event, _) /\ _ |- _ =>
           destruct IH as [(evs & Hevs & Hall) Hex]; [assumption |]
       end.
  all: try (split; [|first [exact I | now auto | exact Hex]]).
  - inversion Hq.
  - exists []. now rewrite app_nil_r.
  - exists []. now rewrite app_nil_r.
  - exists [Prompt cur_file (_x :: _x0) (Some [])]. split; [reflexivity |].
    constructor; [exact Hq | constructor].
  - exists (Prompt cur_file (_x :: _x0) (Some []) :: evs).
    split; [rewrite Hevs; cbn; now rewrite <- app_assoc | now constructor].
  - exists [Prompt cur_file (_x :: _x0) (Some (c :: cs)); Quitting; PlayerQuit].
    split; [cbn; now rewrite <- !app_assoc |].
    constructor; [exact Hq | repeat constructor].
  - exists (Prompt cur_file (_x :: _x0) (Some (c :: cs)) :: map (Copied cur_file) (c :: cs)).
    split; [rewrite Hlog; now rewrite <- app_assoc |].
    constructor; [exact Hq |]. apply Forall_forall.
    intros e (d & -> & _)%list_elem_of_fmap. exact I.
  - exists (Prompt cur_file (_x :: _x0) (Some (c :: cs))
            :: map (Copied cur_file) (c :: cs) ++ evs).
    split; [rewrite Hevs, Hlog; now rewrite <- !app_assoc |].
    constructor; [exact Hq |]. apply Forall_app. split; [|exact Hall].
    apply Forall_forall. intros e (d & -> & _)%list_elem_of_fmap. exact I.
  - exists (Prompt cur_file (_x :: _x0) (Some (c :: cs)) :: map (Copied cur_file) done).
    split; [rewrite Hlog; now rewrite <- app_assoc |].
    constructor; [exact Hq |]. apply Forall_forall.
    intros e (d & -> & _)%list_elem_of_fmap. exact I.
  - exists [Prompt cur_file (_x :: _x0) None]. split; [reflexivity |].
    constructor; [exact Hq | constructor].
  - exists (Prompt cur_file (_x :: _x0) None :: evs).
    split; [rewrite Hevs; cbn; now rewrite <- app_assoc | now constructor].
Qed.

Lemma never_twice_copies (f : string) (done gone : list string) (evs : list event) :
  NoDup done -> (forall d, d ∈ done -> d ∉ gone) ->
  never_twice (rev done ++ gone) evs ->
  never_twice gone (map (Copied f) done ++ evs).
Proof.
  revert gone; induction done as [|d done IH]; intros gone Hnd Hfresh Hrest; [exact Hrest |].
  apply NoDup_cons in Hnd as [Hd Hnd]. cbn. split.
  - apply Hfresh. left.
  - apply IH; [exact Hnd | |].
    + intros d' Hd' [->|Hg]%elem_of_cons; [contradiction |].
      apply (Hfresh d'); [now right | exact Hg].
    + cbn in Hrest. now rewrite <- app_assoc in Hrest.
Qed.

Lemma once_remove (done pool pool' : list string) :
  once pool -> pool ≡ₚ done ++ pool' -> QUIT_CHOICE ∉ done ->
  once pool' /\ forall d, d ∈ done -> d ∉ pool'.
Proof.
  unfold once. intros Hnd Hperm Hq.
  rewrite Hperm, filter_app in Hnd. apply NoDup_app in Hnd as (_ & Hdisj & Hnd').
  split; [exact Hnd' |]. intros d Hd Hd'.
  assert (d <> QUIT_CHOICE) as Hne by (intros ->; contradiction).
  apply (Hdisj d); apply list_elem_of_filter; now split.
Qed.

(** With honest answers, the decision loop copies to no label twice and
    offers no label it has copied to. *)
Lemma decision_loop_never_twice (single : bool) (f : string)
  (script : list (option (list string))) (cancelled : bool) (pool : list string)
  (st : state) :
  forall gone, once pool -> (forall d, d ∈ gone -> d ∉ pool) ->
  let res := decision_loop single f script cancelled pool st in
  exists evs, log res.2 = log st ++ evs
              /\ (Forall honest evs -> never_twice gone evs).
Proof.
  cbv zeta.
  functional induction (decision_loop single f script cancelled pool st);
    cbn [fst snd]; intros gone Honce Hgone.
  all: try copy_never_returns.
  all: try match goal with
       | H : copy_choices _ _ _ _ = _ |- _ =>
           pose proof H as (done & todo & Hsplit & Hlog & _ & _ & _ & Hfl)%copy_choices_spec;
           cbn [log emit] in Hlog
       end.
  - exists []. now rewrite app_nil_r.
  - exists []. now rewrite app_nil_r.
  - exists []. now rewrite app_nil_r.
  - exists [Prompt cur_file (_x :: _x0) (Some [])]. split; [reflexivity |].
    intros _. cbn. now split.
  - destruct (IHp gone Honce Hgone) as (evs & Hevs & Hnt).
    exists (Prompt cur_file (_x :: _x0) (Some []) :: evs).
    split; [rewrite Hevs; cbn; now rewrite <- app_assoc |].
    intros [_ Hh]%Forall_cons. cbn. split; [exact Hgone | now apply Hnt].
  - exists [Prompt cur_file (_x :: _x0) (Some (c :: cs)); Quitting; PlayerQuit].
    split; [cbn; now rewrite <- !app_assoc |]. intros _. cbn. now split.
  - exists (Prompt cur_file (_x :: _x0) (Some (c :: cs)) :: map (Copied cur_file) done).
    split; [rewrite Hlog; now rewrite <- app_assoc |].
    intros [[Hnd Hsub] _]%Forall_cons. rewrite Forall_forall in Hsub. cbn [never_twice]. split; [exact Hgone |].
    rewrite <- (app_nil_r (map _ _)). rewrite Hsplit in Hnd, Hsub.
    apply NoDup_app in Hnd as (Hnd & _ & _).
    apply never_twice_copies; [exact Hnd | | exact I].
    intros d Hd Hg. apply (Hgone d Hg), Hsub, elem_of_app. now left.
  - destruct Hfl as [-> Hperm]. rewrite app_nil_r in Hsplit. subst done.
    assert (QUIT_CHOICE ∉ c :: cs) as Hq by now apply py_in_false.
    destruct (once_remove _ _ _ Honce Hperm Hq) as [Honce' Hfresh].
    destruct (IHp (rev (c :: cs) ++ gone) Honce') as (evs & Hevs & Hnt).
    { intros d [Hd|Hd]%elem_of_app.
      - apply Hfresh. apply list_elem_of_In, in_rev. now apply list_elem_of_In.
      - intros Hd'. apply (Hgone d Hd). rewrite Hperm. apply elem_of_app. now right. }
    exists (Prompt cur_file (_x :: _x0) (Some (c :: cs))
            :: map (Copied cur_file) (c :: cs) ++ evs).
    split; [rewrite Hevs, Hlog; now rewrite <- !app_assoc |].
    intros [[Hnd Hsub] [_ Hh]%Forall_app]%Forall_cons. rewrite Forall_forall in Hsub. cbn [never_twice].
    split; [exact Hgone |].
    apply never_twice_copies; [exact Hnd | | now apply Hnt].
    intros d Hd Hg. apply (Hgone d Hg), Hsub, Hd.
  - exists (Prompt cur_file (_x :: _x0) (Some (c :: cs)) :: map (Copied cur_file) done).
    split; [rewrite Hlog; now rewrite <- app_assoc |].
    intros [[Hnd Hsub] _]%Forall_cons. rewrite Forall_forall in Hsub. cbn [never_twice]. split; [exact Hgone |].
    rewrite <- (app_nil_r (map _ _)). rewrite Hsplit in Hnd, Hsub.
    apply NoDup_app in Hnd as (Hnd & _ & _).
    apply never_twice_copies; [exact Hnd | | exact I].
    intros d Hd Hg. apply (Hgone d Hg), Hsub, elem_of_app. now left.
  - exists [Prompt cur_file (_x :: _x0) None]. split; [reflexivity |].
    intros _. cbn. now split.
  - destruct (IHp gone Honce Hgone) as (evs & Hevs & Hnt).
    exists (Prompt cur_file (_x :: _x0) None :: evs).
    split; [rewrite Hevs; cbn; now rewrite <- app_assoc |].
    intros [_ Hh]%Forall_cons. cbn. split; [exact Hgone | now apply Hnt].
Qed.

End DecisionLoop.

Section OuterLoop.

Variables (dlist : list string) (delete single : bool).

Lemma player_current_head (f : string) (rest : list string) (st : state) :
  playlist st = f :: rest -> playlist_pos st = 0%Z -> player_current st = Some f.
Proof. unfold player_current, py_getitem. now intros -> ->. Qed.

Lemma player_load_in_step (flist : list string) (st : state) :
  in_step flist (player_load flist st)
  /\ disk (player_load flist st) = disk st
  /\ log (player_load flist st) =
     log st ++ match flist with f :: _ => [Play f] | [] => [] end.
Proof.
  destruct flist as [|f rest]; cbn; unfold in_step; cbn;
    rewrite ?app_nil_r; split_and!; done.
Qed.

Lemma playlist_remove_head (f : string) (rest : list string) (st : state) :
  playlist st = f :: rest -> playlist_pos st = 0%Z ->
  exists st1,
    playlist_remove st = Next st1 /\ in_step rest st1 /\ disk st1 = disk st
    /\ log st1 = log st ++ match rest with g :: _ => [Play g] | [] => [] end.
Proof.
  intros Hpl Hpos. unfold playlist_remove. rewrite Hpl, Hpos. cbn.
  destruct rest as [|g rest]; cbn; eexists; (split; [reflexivity |]);
    unfold in_step; cbn; rewrite ?app_nil_r; split_and!; done.
Qed.

(** The step after the decision loop, from a state of the outer loop. *)
Lemma advance_head (f : string) (rest : list string) (st : state) :
  playlist st = f :: rest -> playlist_pos st = 0%Z ->
  let res := advance delete f st in
  exists evs,
    log res.2 = log st ++ evs
    /\ in_step rest res.2
    /\ Forall (fun e => match e with
                        | Play g => head rest = Some g
                        | Removed x => x = f
                        | _ => False
                        end) evs
    /\ (forall x, x ∈ disk st -> x ∈ disk res.2 \/ (x = f /\ Removed f ∈ evs))
    /\ (if delete then f ∉ disk res.2 else disk res.2 = disk st)
    /\ (res.1 = Next tt
        \/ (res.1 = Raise (FileNotFoundError f) /\ delete = true /\ f ∉ disk st)).
Proof.
  intros Hpl Hpos. cbv zeta. unfold advance.
  destruct (playlist_remove_head f rest st Hpl Hpos) as (st1 & -> & Hstep & Hdisk & Hlog).
  assert (Hplay : Forall (fun e => match e with
                                   | Play g => head rest = Some g
                                   | Removed x => x = f
                                   | _ => False
                                   end)
                    match rest with g :: _ => [Play g] | [] => [] end).
  { destruct rest; repeat constructor. }
  destruct delete.
  - unfold os_remove. rewrite Hdisk. case_bool_decide as Hin; cbn [fst snd].
    + exists (match rest with g :: _ => [Play g] | [] => [] end ++ [Removed f]).
      cbn. rewrite Hlog, <- app_assoc. split_and!; try done.
      * apply Forall_app. split; [exact Hplay | now repeat constructor].
      * intros x Hx. destruct (decide (x = f)) as [->|Hne].
        -- right. split; [reflexivity |]. apply elem_of_app. right. left.
        -- left. apply elem_of_difference.
           split; [exact Hx | now intros ?%elem_of_singleton].
      * intros [_ H]%elem_of_difference. apply H. now apply elem_of_singleton.
      * now left.
    + exists (match rest with g :: _ => [Play g] | [] => [] end).
      split_and!; try done.
      * intros x Hx. left. now rewrite Hdisk.
      * now rewrite Hdisk.
      * right. now split_and!.
  - exists (match rest with g :: _ => [Play g] | [] => [] end). cbn [fst snd].
    split_and!; try done.
    + intros x Hx. left. now rewrite Hdisk.
    + now left.
Qed.

Lemma round_event_concerns (f g : string) (e : event) :
  round_event f e -> concerns g e = true -> g = f.
Proof.
  destruct e; cbn; try discriminate; try contradiction;
    intros <- H%String.eqb_eq; congruence.
Qed.

Lemma round_event_not_removed (f x : string) (evs : list event) :
  Forall (round_event f) evs -> Removed x ∉ evs.
Proof.
  intros Hall Hin. rewrite Forall_forall in Hall. exact (Hall _ Hin).
Qed.

(** One turn of the outer loop, from a state of the outer loop. *)
Lemma sort_one_head (total n : nat) (f : string) (rest : list string) (script : list (option (list string)))
  (st : state) :
  playlist st = f :: rest -> playlist_pos st = 0%Z ->
  let res := sort_one dlist delete single total n script st in
  exists evs,
    log res.2 = log st ++ evs
    /\ (forall x, x ∈ disk st -> x ∈ disk res.2 \/ Removed x ∈ evs)
    /\ match res.1 with
       | Next _ =>
           in_step rest res.2
           /\ Forall (fun e => quit_answer e = false) evs
           /\ Forall (fun e => forall g, concerns g e = true ->
                                         g = f \/ head rest = Some g) evs
           /\ (forall x, Removed x ∈ evs -> x = f)
       | Return =>
           exists evs0 pool l,
             evs = evs0 ++ [Prompt f pool (Some l); Quitting; PlayerQuit]
             /\ QUIT_CHOICE ∈ l
             /\ Forall (fun e => quit_answer e = false) evs0
             /\ Forall (fun e => forall g, concerns g e = true -> g = f) evs
             /\ (forall x, Removed x ∉ evs)
       | _ => Forall (fun e => quit_answer e = false) evs
       end.
Proof.
  intros Hpl Hpos. cbv zeta. unfold sort_one.
  rewrite (player_current_head f rest st Hpl Hpos).
  set (st0 := emit (Progress n total) st).
  destruct (decision_loop_frame single f script false (dlist ++ [QUIT_CHOICE]) st0)
    as (evs & (Hlog & Hpl1 & Hpos1 & Hdisk & Hround) & Hquit).
  destruct (decision_loop single f script false (dlist ++ [QUIT_CHOICE]) st0)
    as [fl st1]. cbn [fst snd] in *.
  assert (Hnoremove : forall x, Removed x ∉ Progress n total :: evs).
  { intros x [?|Hin]%elem_of_cons; [discriminate |].
    now apply (round_event_not_removed f x evs). }
  assert (Hconcerns : Forall (fun e => forall g, concerns g e = true -> g = f)
                        (Progress n total :: evs)).
  { constructor; [discriminate |]. eapply Forall_impl; [exact Hround |].
    intros e He g. now apply round_event_concerns. }
  destruct fl as [[[ex pool'] script']| |e|]; cbn [fst snd].
  - destruct (advance_head f rest st1) as
      (adv & Halog & Hstep & Hadv & Hadisk & _ & Hres); [now rewrite Hpl1 | now rewrite Hpos1 |].
    destruct (advance delete f st1) as [fl2 st2]. cbn [fst snd] in *.
    assert (Hlog2 : log st2 = log st ++ Progress n total :: evs ++ adv).
    { rewrite Halog, Hlog. cbn. now rewrite <- !app_assoc. }
    assert (Hdisk2 : forall x, x ∈ disk st ->
                       x ∈ disk st2 \/ Removed x ∈ Progress n total :: evs ++ adv).
    { intros x Hx. destruct (Hadisk x) as [Hin|[-> Hin]]; [now apply Hdisk | now left |].
      right. apply elem_of_cons. right. apply elem_of_app. now right. }
    assert (Hnq : Forall (fun e => quit_answer e = false) (Progress n total :: evs ++ adv)).
    { constructor; [reflexivity |]. apply Forall_app. split; [exact Hquit |].
      eapply Forall_impl; [exact Hadv |]. now intros []. }
    destruct Hres as [->|(-> & _ & _)]; cbn [fst snd];
      exists (Progress n total :: evs ++ adv);
      (split; [exact Hlog2 |]); (split; [exact Hdisk2 |]); [|exact Hnq].
    split_and!; [exact Hstep | exact Hnq | |].
    + rewrite app_comm_cons. apply Forall_app. split.
      * eapply Forall_impl; [exact Hconcerns |]. intros e He g Hg. left. now apply He.
      * eapply Forall_impl; [exact Hadv |]. intros [] He g Hg; try contradiction.
        -- apply String.eqb_eq in Hg. subst. now right.
        -- apply String.eqb_eq in Hg. subst. now left.
    + intros x. rewrite app_comm_cons. intros [Hin|Hin]%elem_of_app.
      * now apply Hnoremove in Hin.
      * rewrite Forall_forall in Hadv. exact (Hadv _ Hin).
  - destruct Hquit as (evs0 & pool & l & -> & Hl & Hnq).
    exists (Progress n total :: evs0 ++ [Prompt f pool (Some l); Quitting; PlayerQuit]).
    split; [rewrite Hlog; cbn; now rewrite <- !app_assoc |].
    split; [intros x Hx; left; now apply Hdisk |].
    exists (Progress n total :: evs0), pool, l.
    split_and!; [reflexivity | exact Hl | now constructor | exact Hconcerns | exact Hnoremove].
  - exists (Progress n total :: evs).
    split; [rewrite Hlog; cbn; now rewrite <- !app_assoc |].
    split; [intros x Hx; left; now apply Hdisk | now constructor].
  - exists (Progress n total :: evs).
    split; [rewrite Hlog; cbn; now rewrite <- !app_assoc |].
    split; [intros x Hx; left; now apply Hdisk | now constructor].
Qed.

(** A run of the outer loop: files vanish by deletion only; a run that ends
    with [Quit] ends on the answer that carries QUIT_CHOICE, and has touched
    the files up to the current one only. *)
Lemma sort_loop_run (total : nat) (flist : list string) :
  forall script st, in_step flist st ->
  let res := sort_loop dlist delete single total flist script st in
  exists evs,
    log res.2 = log st ++ evs
    /\ (forall x, x ∈ disk st -> x ∈ disk res.2 \/ Removed x ∈ evs)
    /\ match res.1 with
       | Quit =>
           exists pre cur post evs0 pool l,
             flist = pre ++ cur :: post
             /\ evs = evs0 ++ [Prompt cur pool (Some l); Quitting; PlayerQuit]
             /\ QUIT_CHOICE ∈ l
             /\ Forall (fun e => quit_answer e = false) evs0
             /\ Forall (fun e => forall g, concerns g e = true -> g ∈ pre ++ [cur]) evs
             /\ (forall x, Removed x ∈ evs -> x ∈ pre)
       | _ => Forall (fun e => quit_answer e = false) evs
       end.
Proof.
  induction flist as [|h flist IH]; intros script st [Hpl Hpos]; cbv zeta.
  - cbn. exists [PlayerQuit; AllSorted]. rewrite <- app_assoc.
    split_and!; [reflexivity | now left | now repeat constructor].
  - specialize (Hpos ltac:(discriminate)). cbn [sort_loop].
    destruct (sort_one_head total (length (h :: flist)) h flist script st Hpl Hpos)
      as (evs1 & Hlog1 & Hdisk1 & Hone).
    destruct (sort_one dlist delete single total (length (h :: flist)) script st)
      as [fl st1]. cbn [fst snd] in *.
    destruct fl as [script'| |e|]; cbn [fst snd].
    + destruct Hone as (Hstep & Hnq1 & Hcon1 & Hrem1).
      destruct (IH script' st1 Hstep) as (evs2 & Hlog2 & Hdisk2 & Hrun).
      destruct (sort_loop dlist delete single total flist script' st1) as [r st2].
      cbn [fst snd] in *.
      exists (evs1 ++ evs2). split; [rewrite Hlog2, Hlog1; now rewrite app_assoc |].
      split.
      { intros x Hx. destruct (Hdisk1 x Hx) as [Hin|Hin].
        - destruct (Hdisk2 x Hin) as [?|Hin2]; [now left |].
          right. apply elem_of_app. now right.
        - right. apply elem_of_app. now left. }
      destruct r; try (apply Forall_app; now split).
      destruct Hrun as (pre & cur & post & evs0 & pool & l & -> & -> & Hl & Hnq & Hcon & Hrem).
      exists (h :: pre), cur, post, (evs1 ++ evs0), pool, l.
      split_and!; [reflexivity | now rewrite app_assoc | exact Hl | | |].
      * apply Forall_app. now split.
      * apply Forall_app. split.
        -- eapply Forall_impl; [exact Hcon1 |]. intros e He g Hg.
           destruct (He g Hg) as [->|Hhead]; [left |].
           right. destruct pre as [|p pre]; cbn in Hhead; injection Hhead as <-; left.
        -- eapply Forall_impl; [exact Hcon |]. intros e He g Hg. right. now apply He.
      * intros x [Hin|Hin]%elem_of_app.
        -- rewrite (Hrem1 x Hin). left.
        -- right. now apply Hrem.
    + destruct Hone as (evs0 & pool & l & -> & Hl & Hnq & Hcon & Hrem).
      exists (evs0 ++ [Prompt h pool (Some l); Quitting; PlayerQuit]).
      split; [exact Hlog1 |]. split; [exact Hdisk1 |].
      exists [], h, flist, evs0, pool, l.
      split_and!; [reflexivity | reflexivity | exact Hl | exact Hnq | |].
      * eapply Forall_impl; [exact Hcon |]. intros e He g Hg. rewrite (He g Hg). left.
      * intros x Hin. now apply Hrem in Hin.
    + exists evs1. now split_and!.
    + exists evs1. now split_and!.
Qed.

(** The same for a call of [sort_files]. *)
Lemma sort_files_run (flist : list string) (script : list (option (list string)))
  (st : state) :
  let res := sort_files flist dlist delete single script st in
  exists evs,
    new_events st res.2 = evs
    /\ (forall x, x ∈ disk st -> x ∈ disk res.2 \/ Removed x ∈ evs)
    /\ match res.1 with
       | Quit =>
           exists pre cur post evs0 pool l,
             flist = pre ++ cur :: post
             /\ evs = evs0 ++ [Prompt cur pool (Some l); Quitting; PlayerQuit]
             /\ QUIT_CHOICE ∈ l
             /\ Forall (fun e => quit_answer e = false) evs0
             /\ Forall (fun e => forall g, concerns g e = true -> g ∈ pre ++ [cur]) evs
             /\ (forall x, Removed x ∈ evs -> x ∈ pre)
       | _ => Forall (fun e => quit_answer e = false) evs
       end.
Proof.
  cbv zeta. unfold sort_files.
  destruct (player_load_in_step flist st) as (Hstep & Hdisk0 & Hlog0).
  destruct (sort_loop_run (length flist) flist script (player_load flist st) Hstep)
    as (evs & Hlog & Hdisk & Hrun).
  set (res := sort_loop dlist delete single (length flist) flist script
                (player_load flist st)) in *.
  set (play := match flist with f :: _ => [Play f] | [] => [] end) in *.
  assert (Hplay : Forall (fun e => quit_answer e = false) play).
  { subst play. destruct flist; now repeat constructor. }
  exists (play ++ evs). split.
  { unfold new_events. rewrite Hlog, Hlog0, <- app_assoc. apply drop_app_length. }
  split.
  { intros x Hx. rewrite <- Hdisk0 in Hx. destruct (Hdisk x Hx) as [?|Hin]; [now left |].
    right. apply elem_of_app. now right. }
  destruct res.1; try (apply Forall_app; now split).
  destruct Hrun as (pre & cur & post & evs0 & pool & l & Hfl & -> & Hl & Hnq & Hcon & Hrem).
  exists pre, cur, post, (play ++ evs0), pool, l.
  split_and!; [exact Hfl | now rewrite app_assoc | exact Hl | | |].
  - apply Forall_app. now split.
  - apply Forall_app. split; [|exact Hcon].
    subst play. rewrite Hfl.
    destruct pre as [|p pre]; cbn; (constructor; [|constructor]);
      intros g <-%String.eqb_eq; left.
  - intros x [Hin|Hin]%elem_of_app; [|now apply Hrem].
    subst play. destruct flist; [inversion Hin |].
    apply list_elem_of_singleton in Hin. discriminate.
Qed.

End OuterLoop.

(** ** The global stop *)

Section Stop.

(** A run that was given an answer with QUIT_CHOICE ends there. *)
Lemma quit_run (flist dlist : list string) (delete single : bool)
  (script : list (option (list string))) (st : state)
  (cur : string) (pool l : list string) :
  let res := sort_files flist dlist delete single script st in
  Prompt cur pool (Some l) ∈ new_events st res.2 -> QUIT_CHOICE ∈ l ->
  res.1 = Quit
  /\ (forall x, x ∈ disk st -> x ∈ disk res.2 \/ Removed x ∈ new_events st res.2)
  /\ exists pre post evs0,
       flist = pre ++ cur :: post
       /\ new_events st res.2 = evs0 ++ [Prompt cur pool (Some l); Quitting; PlayerQuit]
       /\ Forall (fun e => quit_answer e = false) evs0
       /\ Forall (fun e => forall g, concerns g e = true -> g ∈ pre ++ [cur])
            (new_events st res.2)
       /\ (forall x, Removed x ∈ new_events st res.2 -> x ∈ pre).
Proof.
  cbv zeta. intros Hin Hl.
  destruct (sort_files_run dlist delete single flist script st)
    as (evs & Hevs & Hdisk & Hrun).
  rewrite Hevs in *. clear Hevs.
  assert (Hq : quit_answer (Prompt cur pool (Some l)) = true) by now apply py_in_iff.
  assert (Hno : forall evs', Forall (fun e => quit_answer e = false) evs' ->
                             Prompt cur pool (Some l) ∉ evs').
  { intros evs' Hall Hin'. rewrite Forall_forall in Hall.
    specialize (Hall _ Hin'). congruence. }
  destruct (sort_files flist dlist delete single script st).1;
    try (exfalso; exact (Hno _ Hrun Hin)).
  destruct Hrun as (pre & cur' & post & evs0 & pool' & l' & Hfl & -> & Hl' & Hnq & Hcon & Hrem).
  apply elem_of_app in Hin as [Hin|Hin]; [exfalso; exact (Hno _ Hnq Hin) |].
  apply elem_of_cons in Hin as [E|Hin].
  2:{ apply elem_of_cons in Hin as [?|Hin]; [discriminate |].
      apply list_elem_of_singleton in Hin. discriminate. }
  injection E as <- <- <-.
  split_and!; [reflexivity | exact Hdisk |].
  exists pre, post, evs0. now split_and!.
Qed.

Lemma new_events_app (st st' : state) (evs : list event) :
  log st' = log st ++ evs -> new_events st st' = evs.
Proof. unfold new_events. intros ->. apply drop_app_length. Qed.

(** C1, as the specification words it, fails: the answer [t/x; Quit sorting]
    given for [s/a.png] ends the run, and the copy to [t/x], the label that
    stands before QUIT_CHOICE in the answer, was not applied. *)
Lemma quit_after_label_copies_nothing_counterexample :
  let answer := ["t/x"; QUIT_CHOICE] in
  let res := sort_files sample_files sample_dirs false false [Some answer] sample_state in
  res.1 = Quit
  /\ Prompt "s/a.png" ["t/x"; "t/y"; QUIT_CHOICE] (Some answer) ∈ new_events sample_state res.2
  /\ (Copied "s/a.png" "t/x" ∉ new_events sample_state res.2)
  /\ ("t/x/a.png" ∉ disk res.2).
Proof.
  cbv zeta. split_and!; [reflexivity | ..];
    apply (bool_decide_unpack _); vm_compute; exact I.
Qed.

(** C1 (amended): an answer that carries QUIT_CHOICE, alone or with directory
    labels, makes the decision loop return at once: the state gains the
    prompt and the two events of quitting and nothing else, so no label of
    that answer is copied to and the disk is what the earlier rounds left;
    the run of [sort_files] that saw the answer ends with [Quit], with that
    prompt as its last event before the two of quitting. *)
Theorem quit_answer_copies_nothing (single : bool) (cur_file : string)
  (script : list (option (list string))) (cur_dirs : list string) (st : state)
  (l : list string) (flist dlist : list string) (delete : bool)
  (script0 : list (option (list string))) (st0 : state) :
  cur_dirs <> [] -> QUIT_CHOICE ∈ l ->
  (let res := decision_loop single cur_file (Some l :: script) false cur_dirs st in
   res.1 = Return
   /\ disk res.2 = disk st
   /\ new_events st res.2 = [Prompt cur_file cur_dirs (Some l); Quitting; PlayerQuit])
  /\ (let run := sort_files flist dlist delete single script0 st0 in
      Prompt cur_file cur_dirs (Some l) ∈ new_events st0 run.2 ->
      run.1 = Quit
      /\ exists evs0,
           new_events st0 run.2 =
           evs0 ++ [Prompt cur_file cur_dirs (Some l); Quitting; PlayerQuit]
           /\ Forall (fun e => quit_answer e = false) evs0).
Proof.
  intros Hpool Hl. split; cbv zeta.
  - destruct cur_dirs as [|d cur_dirs]; [contradiction |].
    destruct l as [|c cs]; [inversion Hl |].
    cbn [decision_loop]. rewrite (proj2 (py_in_iff _ _) Hl). cbn [fst snd].
    split_and!; [reflexivity | reflexivity |].
    apply new_events_app. cbn. now rewrite <- !app_assoc.
  - intros Hin.
    destruct (quit_run flist dlist delete single script0 st0 _ _ _ Hin Hl)
      as (Hres & _ & pre & post & evs0 & _ & Hevs & Hnq & _).
    split; [exact Hres |]. now exists evs0.
Qed.

Lemma quit_answer_copies_nothing_witness :
  let l := ["t/y"; QUIT_CHOICE] in
  let pool := ["t/y"; QUIT_CHOICE] in
  let script0 := [Some ["t/x"]; Some l] in
  let run := sort_files sample_files sample_dirs true false script0 sample_state in
  pool <> [] /\ QUIT_CHOICE ∈ l
  /\ (let res := decision_loop false "s/a.png" [Some l] false pool sample_state in
      res.1 = Return
      /\ disk res.2 = disk sample_state
      /\ new_events sample_state res.2 = [Prompt "s/a.png" pool (Some l); Quitting; PlayerQuit])
  /\ Prompt "s/a.png" pool (Some l) ∈ new_events sample_state run.2
  /\ run.1 = Quit
  /\ exists evs0,
       new_events sample_state run.2 =
       evs0 ++ [Prompt "s/a.png" pool (Some l); Quitting; PlayerQuit]
       /\ Forall (fun e => quit_answer e = false) evs0.
Proof.
  cbv zeta.
  assert (H1 : ["t/y"; QUIT_CHOICE] <> []) by discriminate.
  assert (H2 : QUIT_CHOICE ∈ ["t/y"; QUIT_CHOICE])
    by (apply (bool_decide_unpack _); vm_compute; exact I).
  assert (H3 : Prompt "s/a.png" ["t/y"; QUIT_CHOICE] (Some ["t/y"; QUIT_CHOICE])
               ∈ new_events sample_state
                   (sort_files sample_files sample_dirs true false
                      [Some ["t/x"]; Some ["t/y"; QUIT_CHOICE]] sample_state).2)
    by (apply (bool_decide_unpack _); vm_compute; exact I).
  destruct (quit_answer_copies_nothing false "s/a.png" [] ["t/y"; QUIT_CHOICE]
              sample_state ["t/y"; QUIT_CHOICE] sample_files sample_dirs true
              [Some ["t/x"]; Some ["t/y"; QUIT_CHOICE]] sample_state H1 H2)
    as [Hloop Hrun].
  split; [exact H1 |]. split; [exact H2 |]. split; [exact Hloop |].
  split; [exact H3 |]. exact (Hrun H3).
Defined.

(** C2: when an answer with QUIT_CHOICE is given while [cur] is current, the
    run ends with [Quit], the prompt is its last event before the two of
    quitting (playback is stopped), and every event that plays, offers,
    copies or deletes a file is about [cur] or a file before it in the
    queue: no file after [cur] is played, copied or deleted. *)
Theorem quit_touches_no_later_file (flist dlist : list string) (delete single : bool)
  (script : list (option (list string))) (st : state)
  (cur : string) (pool l : list string) :
  let res := sort_files flist dlist delete single script st in
  Prompt cur pool (Some l) ∈ new_events st res.2 -> QUIT_CHOICE ∈ l ->
  res.1 = Quit
  /\ exists pre post evs0,
       flist = pre ++ cur :: post
       /\ new_events st res.2 = evs0 ++ [Prompt cur pool (Some l); Quitting; PlayerQuit]
       /\ Forall (fun e => forall g, concerns g e = true -> g ∈ pre ++ [cur])
            (new_events st res.2)
       /\ (NoDup flist ->
           forall g, g ∈ post ->
                     Forall (fun e => concerns g e = false) (new_events st res.2)).
Proof.
  cbv zeta. intros Hin Hl.
  destruct (quit_run flist dlist delete single script st _ _ _ Hin Hl)
    as (Hres & _ & pre & post & evs0 & Hfl & Hevs & _ & Hcon & _).
  split; [exact Hres |]. exists pre, post, evs0.
  split_and!; [exact Hfl | exact Hevs | exact Hcon |].
  intros Hnd g Hg. eapply Forall_impl; [exact Hcon |]. intros e He.
  destruct (concerns g e) eqn:Hc; [|reflexivity]. exfalso.
  specialize (He g Hc). rewrite Hfl, cons_middle, app_assoc in Hnd.
  apply NoDup_app in Hnd as (_ & Hdisj & _). exact (Hdisj g He Hg).
Qed.

Lemma quit_touches_no_later_file_witness :
  let flist := ["s/a.png"; "s/b.mp4"; "s/c.gif"] in
  let script := [Some ["t/x"]; None; Some [QUIT_CHOICE]; Some ["t/y"]] in
  let pool := ["t/x"; "t/y"; QUIT_CHOICE] in
  let res := sort_files flist sample_dirs true false script sample_state in
  Prompt "s/b.mp4" pool (Some [QUIT_CHOICE]) ∈ new_events sample_state res.2
  /\ QUIT_CHOICE ∈ [QUIT_CHOICE]
  /\ res.1 = Quit
  /\ exists pre post evs0,
       flist = pre ++ "s/b.mp4" :: post
       /\ new_events sample_state res.2 =
          evs0 ++ [Prompt "s/b.mp4" pool (Some [QUIT_CHOICE]); Quitting; PlayerQuit]
       /\ Forall (fun e => forall g, concerns g e = true -> g ∈ pre ++ ["s/b.mp4"])
            (new_events sample_state res.2)
       /\ (NoDup flist ->
           forall g, g ∈ post ->
                     Forall (fun e => concerns g e = false) (new_events sample_state res.2)).
Proof.
  cbv zeta.
  assert (H1 : Prompt "s/b.mp4" ["t/x"; "t/y"; QUIT_CHOICE] (Some [QUIT_CHOICE])
               ∈ new_events sample_state
                   (sort_files ["s/a.png"; "s/b.mp4"; "s/c.gif"] sample_dirs true false
                      [Some ["t/x"]; None; Some [QUIT_CHOICE]; Some ["t/y"]]
                      sample_state).2)
    by (apply (bool_decide_unpack _); vm_compute; exact I).
  assert (H2 : QUIT_CHOICE ∈ [QUIT_CHOICE]) by left.
  split; [exact H1 |]. split; [exact H2 |].
  exact (quit_touches_no_later_file _ _ _ _ _ _ _ _ _ H1 H2).
Defined.

(** C9: when an answer with QUIT_CHOICE is given while [cur] is current, the
    run returns before the delete step of [cur]: no deletion of [cur] is in
    the log, and [cur] is on disk after the run if it was before, whatever
    the delete option. *)
Theorem quit_keeps_current_file (flist dlist : list string) (delete single : bool)
  (script : list (option (list string))) (st : state)
  (cur : string) (pool l : list string) :
  NoDup flist ->
  let res := sort_files flist dlist delete single script st in
  Prompt cur pool (Some l) ∈ new_events st res.2 -> QUIT_CHOICE ∈ l ->
  res.1 = Quit
  /\ (Removed cur ∉ new_events st res.2)
  /\ (cur ∈ disk st -> cur ∈ disk res.2).
Proof.
  cbv zeta. intros Hnd Hin Hl.
  destruct (quit_run flist dlist delete single script st _ _ _ Hin Hl)
    as (Hres & Hdisk & pre & post & evs0 & Hfl & _ & _ & _ & Hrem).
  assert (Hkeep : Removed cur ∉ new_events st
                    (sort_files flist dlist delete single script st).2).
  { intros Hpre%Hrem. rewrite Hfl in Hnd.
    apply NoDup_app in Hnd as (_ & Hdisj & _). apply (Hdisj cur Hpre). left. }
  split_and!; [exact Hres | exact Hkeep |].
  intros Hcur. destruct (Hdisk cur Hcur) as [?|?]; [assumption | contradiction].
Qed.

Lemma quit_keeps_current_file_witness :
  let script := [Some ["t/x"]; None; Some ["t/y"; QUIT_CHOICE]] in
  let pool := ["t/x"; "t/y"; QUIT_CHOICE] in
  let res := sort_files sample_files sample_dirs true false script sample_state in
  NoDup sample_files
  /\ Prompt "s/b.mp4" pool (Some ["t/y"; QUIT_CHOICE]) ∈ new_events sample_state res.2
  /\ QUIT_CHOICE ∈ ["t/y"; QUIT_CHOICE]
  /\ res.1 = Quit
  /\ (Removed "s/b.mp4" ∉ new_events sample_state res.2)
  /\ ("s/b.mp4" ∈ disk sample_state -> "s/b.mp4" ∈ disk res.2).
Proof.
  cbv zeta.
  assert (H0 : NoDup sample_files)
    by (apply (bool_decide_unpack _); vm_compute; exact I).
  assert (H1 : Prompt "s/b.mp4" ["t/x"; "t/y"; QUIT_CHOICE] (Some ["t/y"; QUIT_CHOICE])
               ∈ new_events sample_state
                   (sort_files sample_files sample_dirs true false
                      [Some ["t/x"]; None; Some ["t/y"; QUIT_CHOICE]] sample_state).2)
    by (apply (bool_decide_unpack _); vm_compute; exact I).
  assert (H2 : QUIT_CHOICE ∈ ["t/y"; QUIT_CHOICE])
    by (apply (bool_decide_unpack _); vm_compute; exact I).
  split; [exact H0 |]. split; [exact H1 |]. split; [exact H2 |].
  exact (quit_keeps_current_file _ _ _ _ _ _ _ _ _ H0 H1 H2).
Defined.

End Stop.

(** ** The candidate pool *)

Section CandidatePool.

Lemma never_twice_offers (evs : list event) :
  forall gone, never_twice gone evs ->
  forall d g pool r, d ∈ gone -> Prompt g pool r ∈ evs -> d ∉ pool.
Proof.
  induction evs as [|e evs IH]; intros gone Hnt d g pool r Hd Hin; [inversion Hin |].
  apply elem_of_cons in Hin as [<-|Hin].
  - cbn in Hnt. now apply Hnt.
  - destruct e; cbn in Hnt; try (now apply (IH gone Hnt d g pool r)).
    + apply (IH gone (proj2 Hnt) d g pool r); assumption.
    + apply (IH (d0 :: gone) (proj2 Hnt) d g pool r); [now right | assumption].
Qed.

Lemma never_twice_after_copy (e1 e2 : list event) (f d : string) :
  forall gone, never_twice gone (e1 ++ Copied f d :: e2) ->
  forall g pool r, Prompt g pool r ∈ e2 -> d ∉ pool.
Proof.
  induction e1 as [|e e1 IH]; intros gone Hnt g pool r Hin.
  - cbn in Hnt. apply (never_twice_offers e2 (d :: gone) (proj2 Hnt) d g pool r);
      [left | assumption].
  - destruct e; cbn in Hnt; try (now apply (IH gone Hnt g pool r)).
    + now apply (IH gone (proj2 Hnt) g pool r).
    + now apply (IH (d0 :: gone) (proj2 Hnt) g pool r).
Qed.

Lemma never_twice_nodup (f : string) (evs : list event) :
  forall gone, never_twice gone evs -> Forall (round_event f) evs ->
  NoDup (copies evs)
  /\ forall g d, (g, d) ∈ copies evs -> g = f /\ d ∉ gone.
Proof.
  induction evs as [|e evs IH]; intros gone Hnt Hall.
  - cbn. split; [constructor | intros g d Hin; inversion Hin].
  - apply Forall_cons in Hall as [He Hall].
    destruct e; cbn in Hnt, He |- *; try contradiction;
      try (now apply IH); try (now apply (IH gone (proj2 Hnt))).
    destruct Hnt as [Hd Hnt]. destruct (IH (d :: gone) Hnt Hall) as [Hnd Hcop].
    subst f0. split.
    + constructor; [|exact Hnd]. intros Hin. apply Hcop in Hin as [_ Hin].
      apply Hin. left.
    + intros g d' [E|Hin]%elem_of_cons.
      * injection E as -> ->. now split.
      * apply Hcop in Hin as [-> Hin]. split; [reflexivity |].
        intros Hd'. apply Hin. now right.
Qed.

(** C3: in the decision loop of a file, with the directory labels distinct
    and an operator who selects among the labels offered, each at most once
    per answer: a label copied to is offered by no later prompt of the loop
    (removed, never re-admitted), and no (file, directory) pair is copied
    twice. *)
Theorem no_label_twice (dlist : list string) (single : bool) (cur : string)
  (script : list (option (list string))) (st : state) :
  NoDup dlist ->
  let res := decision_loop single cur script false (dlist ++ [QUIT_CHOICE]) st in
  Forall honest (new_events st res.2) ->
  never_twice [] (new_events st res.2)
  /\ (forall e1 e2 d g pool r,
        new_events st res.2 = e1 ++ Copied cur d :: e2 ->
        Prompt g pool r ∈ e2 -> d ∉ pool)
  /\ NoDup (copies (new_events st res.2)).
Proof.
  cbv zeta. intros Hnd.
  assert (Honce : once (dlist ++ [QUIT_CHOICE])).
  { unfold once. rewrite filter_app. cbn.
    rewrite decide_False by (intros H; now apply H).
    rewrite app_nil_r. now apply NoDup_filter. }
  destruct (decision_loop_never_twice single cur script false (dlist ++ [QUIT_CHOICE])
              st [] Honce) as (evs & Hlog & Hnt); [intros d Hd; inversion Hd |].
  destruct (decision_loop_frame single cur script false (dlist ++ [QUIT_CHOICE]) st)
    as (evs' & (Hlog' & _ & _ & _ & Hround) & _).
  rewrite (new_events_app _ _ _ Hlog).
  assert (evs' = evs) as -> by (rewrite Hlog in Hlog'; now apply app_inv_head in Hlog').
  intros Hhonest. specialize (Hnt Hhonest). split_and!; [exact Hnt | |].
  - intros e1 e2 d g pool r ->. now apply (never_twice_after_copy e1 e2 cur d []).
  - now apply (never_twice_nodup cur evs []).
Qed.

Lemma no_label_twice_witness :
  let script := [Some ["t/y"]; Some []; Some ["t/x"]; None] in
  let res := decision_loop false "s/a.png" script false (sample_dirs ++ [QUIT_CHOICE])
               sample_state in
  NoDup sample_dirs
  /\ Forall honest (new_events sample_state res.2)
  /\ never_twice [] (new_events sample_state res.2)
  /\ (forall e1 e2 d g pool r,
        new_events sample_state res.2 = e1 ++ Copied "s/a.png" d :: e2 ->
        Prompt g pool r ∈ e2 -> d ∉ pool)
  /\ NoDup (copies (new_events sample_state res.2)).
Proof.
  cbv zeta.
  assert (H0 : NoDup sample_dirs)
    by (apply (bool_decide_unpack _); vm_compute; exact I).
  assert (H1 : Forall honest
                 (new_events sample_state
                    (decision_loop false "s/a.png"
                       [Some ["t/y"]; Some []; Some ["t/x"]; None] false
                       (sample_dirs ++ [QUIT_CHOICE]) sample_state).2))
    by (apply (bool_decide_unpack _); vm_compute; exact I).
  split; [exact H0 |]. split; [exact H1 |].
  exact (no_label_twice sample_dirs false "s/a.png"
           [Some ["t/y"]; Some []; Some ["t/x"]; None] sample_state H0 H1).
Defined.

(** C10: the pool of a decision loop, built as the directory labels and
    QUIT_CHOICE, holds QUIT_CHOICE at every prompt and when the loop is left;
    so it is never empty, the loop is never left because the pool ran out,
    and it falls through by cancellation or by the single-choice break only
    (otherwise it returns on QUIT_CHOICE, raises, or waits for an answer). *)
Theorem pool_always_offers_quit (dlist : list string) (single : bool) (cur : string)
  (script : list (option (list string))) (st : state) :
  let res := decision_loop single cur script false (dlist ++ [QUIT_CHOICE]) st in
  Forall offers_quit (new_events st res.2)
  /\ match res.1 with
     | Next (ex, pool', _) =>
         QUIT_CHOICE ∈ pool' /\ pool' <> [] /\ ex <> PoolExhausted
         /\ (ex = Cancelled \/ (ex = SingleBreak /\ single = true))
     | _ => True
     end.
Proof.
  cbv zeta.
  destruct (decision_loop_keeps_quit single cur script false (dlist ++ [QUIT_CHOICE]) st)
    as [(evs & Hlog & Hall) Hex].
  { apply elem_of_app. right. left. }
  rewrite (new_events_app _ _ _ Hlog). split; [exact Hall |].
  destruct (decision_loop single cur script false (dlist ++ [QUIT_CHOICE]) st).1
    as [[[ex pool'] script']| | |]; try exact I.
  destruct Hex as [Hq Hex]. split_and!; [exact Hq | | | exact Hex].
  - intros ->. inversion Hq.
  - destruct Hex as [->|[-> _]]; discriminate.
Qed.

End CandidatePool.

(** ** One file of the queue *)

Section PerFile.

(** The copies of an honest answer succeed when the file is on disk and no
    label names the directory the file lies in. *)
Lemma copy_choices_succeeds (cur : string) (l : list string) :
  forall pool st,
    cur ∈ disk st -> NoDup l ->
    (forall d, d ∈ l -> d ∈ pool /\ join d (basename cur) <> cur) ->
    exists pool', (copy_choices cur l pool st).1 = Next pool'.
Proof.
  induction l as [|d l IH]; intros pool st Hcur Hnd Hl; cbn [copy_choices].
  - now exists pool.
  - apply NoDup_cons in Hnd as [Hd Hnd].
    destruct (Hl d) as [Hpool Hne]; [left |].
    unfold shutil_copy. rewrite bool_decide_eq_true_2 by exact Hcur.
    apply String.eqb_neq in Hne. rewrite Hne.
    destruct (py_remove_elem d pool Hpool) as [pool1 Hrm]. rewrite Hrm.
    apply IH; [cbn; now apply elem_of_union_l | exact Hnd |].
    intros d' Hd'. destruct (Hl d') as [Hp' Hne']; [now right |].
    split; [|exact Hne'].
    rewrite (py_remove_Some _ _ _ Hrm) in Hp'.
    apply elem_of_cons in Hp' as [->|Hp']; [contradiction | exact Hp'].
Qed.

Lemma no_prompt_filter (evs : list event) :
  Forall (fun e => is_prompt e = false) evs -> List.filter is_prompt evs = [].
Proof.
  induction 1 as [|e evs He _ IH]; [reflexivity |]. cbn. now rewrite He, IH.
Qed.

(** With the single-choice option the decision loop asks once, whatever it
    is answered. *)
Lemma single_round (cur : string) (answer : option (list string))
  (script : list (option (list string))) (pool : list string) (st : state) :
  pool <> [] ->
  let loop := decision_loop true cur (answer :: script) false pool st in
  List.filter is_prompt (new_events st loop.2) = [Prompt cur pool answer]
  /\ match loop.1 with
     | Next (ex, _, script') => ex = SingleBreak /\ script' = script
     | Wait => False
     | _ => True
     end.
Proof.
  intros Hpool. cbv zeta. destruct pool as [|p pool']; [contradiction |].
  set (pool := p :: pool') in *. cbn [decision_loop]. fold pool.
  destruct answer as [[|c cs]|]; cbn [fst snd].
  - split; [|now split]. now rewrite (new_events_app st _ [Prompt cur pool (Some [])]).
  - destruct (py_in QUIT_CHOICE (c :: cs)); cbn [fst snd].
    { split; [|exact I].
      rewrite (new_events_app st _ [Prompt cur pool (Some (c :: cs)); Quitting; PlayerQuit]);
        [reflexivity | cbn; now rewrite <- !app_assoc]. }
    destruct (copy_choices cur (c :: cs) pool (emit (Prompt cur pool (Some (c :: cs))) st))
      as [fl st1] eqn:Hcc.
    apply copy_choices_spec in Hcc as (done & todo & _ & Hlog & _ & _ & _ & Hfl).
    assert (Hnew : new_events st st1
                   = Prompt cur pool (Some (c :: cs)) :: map (Copied cur) done).
    { apply new_events_app. rewrite Hlog. cbn. now rewrite <- app_assoc. }
    assert (Hfilter : List.filter is_prompt (new_events st st1)
                      = [Prompt cur pool (Some (c :: cs))]).
    { rewrite Hnew. cbn. f_equal. apply no_prompt_filter, Forall_forall.
      now intros e (d & -> & _)%list_elem_of_fmap. }
    destruct fl as [pool1| |e|]; cbn [fst snd]; try contradiction; now split.
  - split; [|now split]. now rewrite (new_events_app st _ [Prompt cur pool None]).
Qed.

(** C4: with the single-choice option, the decision loop of a file asks one
    prompt and no more, whatever the answer and whatever is left in the pool,
    and leaves the other answers for the files to come; after a
    cancellation, an empty selection or a selection of any number of
    directories, the turn of the file ends and the rest of the queue
    follows. *)
Theorem single_choice_one_round (dlist : list string) (delete : bool) (total : nat)
  (cur : string) (rest : list string) (answer : option (list string))
  (script : list (option (list string))) (st : state) :
  (forall pool st',
      pool <> [] ->
      let loop := decision_loop true cur (answer :: script) false pool st' in
      List.filter is_prompt (new_events st' loop.2) = [Prompt cur pool answer]
      /\ match loop.1 with
         | Next (ex, _, script') => ex = SingleBreak /\ script' = script
         | Wait => False
         | _ => True
         end)
  /\ (playlist st = cur :: rest -> playlist_pos st = 0%Z -> cur ∈ disk st ->
      match answer with
      | Some l =>
          (QUIT_CHOICE ∉ l) /\ NoDup l
          /\ forall d, d ∈ l -> d ∈ dlist /\ join d (basename cur) <> cur
      | None => True
      end ->
      let res := sort_one dlist delete true total (length (cur :: rest))
                   (answer :: script) st in
      res.1 = Next script
      /\ in_step rest res.2
      /\ List.filter is_prompt (new_events st res.2)
         = [Prompt cur (dlist ++ [QUIT_CHOICE]) answer]
      /\ sort_loop dlist delete true total (cur :: rest) (answer :: script) st
         = sort_loop dlist delete true total rest script res.2).
Proof.
  split; [intros pool st' Hpool; now apply single_round |].
  intros Hpl Hpos Hcur Hans. cbv zeta.
  assert (Hgoal :
    let res := sort_one dlist delete true total (length (cur :: rest))
                 (answer :: script) st in
    res.1 = Next script /\ in_step rest res.2
    /\ List.filter is_prompt (new_events st res.2)
       = [Prompt cur (dlist ++ [QUIT_CHOICE]) answer]).
  2:{ cbv zeta in Hgoal. destruct Hgoal as (Hres & Hstep & Hfil).
      split_and!; [exact Hres | exact Hstep | exact Hfil |].
      cbn [sort_loop].
      destruct (sort_one dlist delete true total (length (cur :: rest))
                  (answer :: script) st) as [fl st']. cbn in Hres. now subst fl. }
  cbv zeta. unfold sort_one. rewrite (player_current_head cur rest st Hpl Hpos).
  set (n := length (cur :: rest)). set (st0 := emit (Progress n total) st).
  set (pool := dlist ++ [QUIT_CHOICE]).
  assert (Hloop : exists pool' st1 done,
             decision_loop true cur (answer :: script) false pool st0
             = (Next (SingleBreak, pool', script), st1)
             /\ log st1 = log st0 ++ Prompt cur pool answer :: map (Copied cur) done
             /\ playlist st1 = playlist st0 /\ playlist_pos st1 = playlist_pos st0
             /\ disk st0 ⊆ disk st1).
  { destruct pool as [|p pool'] eqn:Hpool.
    { subst pool. now apply app_eq_nil in Hpool as [_ ?]. }
    cbn [decision_loop]. rewrite <- Hpool.
    destruct answer as [[|c cs]|].
    - exists pool, (emit (Prompt cur pool (Some [])) st0), []. now split_and!.
    - destruct Hans as (Hq & Hnd & Hl). apply py_in_false in Hq. rewrite Hq.
      destruct (copy_choices_succeeds cur (c :: cs) pool
                  (emit (Prompt cur pool (Some (c :: cs))) st0)) as [pool1 Hcopy];
        [exact Hcur | exact Hnd | |].
      { intros d Hd. destruct (Hl d Hd) as [Hin Hne]. split; [|exact Hne].
        subst pool. apply elem_of_app. now left. }
      destruct (copy_choices cur (c :: cs) pool
                  (emit (Prompt cur pool (Some (c :: cs))) st0)) as [fl st1] eqn:Hcc.
      cbn in Hcopy. subst fl.
      apply copy_choices_spec in Hcc as (done & todo & _ & Hlog & Hp1 & Hq1 & Hd1 & _).
      exists pool1, st1, done. split_and!; try done.
      rewrite Hlog. cbn. now rewrite <- app_assoc.
    - exists pool, (emit (Prompt cur pool None) st0), []. now split_and!. }
  destruct Hloop as (pool' & st1 & done & -> & Hlog1 & Hpl1 & Hpos1 & Hdisk1).
  destruct (advance_head delete cur rest st1) as
    (adv & Halog & Hstep & Hadv & _ & _ & Hres); [now rewrite Hpl1 | now rewrite Hpos1 |].
  destruct (advance delete cur st1) as [fl2 st2]. cbn [fst snd] in *.
  destruct Hres as [->|(_ & _ & Hgone)]; [|exfalso; apply Hgone, Hdisk1, Hcur].
  cbn [fst snd]. split_and!; [reflexivity | exact Hstep |].
  rewrite (new_events_app st st2
             (Progress n total :: Prompt cur pool answer :: map (Copied cur) done ++ adv)).
  - cbn. f_equal. apply no_prompt_filter, Forall_app. split.
    + apply Forall_forall. now intros e (d & -> & _)%list_elem_of_fmap.
    + eapply Forall_impl; [exact Hadv |]. now intros [].
  - rewrite Halog, Hlog1. cbn. now rewrite <- !app_assoc.
Qed.

Lemma single_choice_one_round_witness :
  let answer := Some ["t/y"; "t/x"] in
  let st := player_load sample_files sample_state in
  (forall pool st',
      pool <> [] ->
      let loop := decision_loop true "s/a.png" [answer; None] false pool st' in
      List.filter is_prompt (new_events st' loop.2) = [Prompt "s/a.png" pool answer]
      /\ match loop.1 with
         | Next (ex, _, script') => ex = SingleBreak /\ script' = [None]
         | Wait => False
         | _ => True
         end)
  /\ (playlist st = "s/a.png" :: ["s/b.mp4"] -> playlist_pos st = 0%Z ->
      "s/a.png" ∈ disk st ->
      ((QUIT_CHOICE ∉ ["t/y"; "t/x"]) /\ NoDup ["t/y"; "t/x"]
       /\ forall d, d ∈ ["t/y"; "t/x"] ->
                    d ∈ sample_dirs /\ join d (basename "s/a.png") <> "s/a.png") ->
      let res := sort_one sample_dirs true true 2 (length sample_files)
                   [answer; None] st in
      res.1 = Next [None]
      /\ in_step ["s/b.mp4"] res.2
      /\ List.filter is_prompt (new_events st res.2)
         = [Prompt "s/a.png" (sample_dirs ++ [QUIT_CHOICE]) answer]
      /\ sort_loop sample_dirs true true 2 sample_files [answer; None] st
         = sort_loop sample_dirs true true 2 ["s/b.mp4"] [None] res.2)
  /\ (let res := sort_one sample_dirs true true 2 (length sample_files)
                   [answer; None] st in
      res.1 = Next [None] /\ in_step ["s/b.mp4"] res.2).
Proof.
  cbv zeta.
  pose proof (single_choice_one_round sample_dirs true 2 "s/a.png" ["s/b.mp4"]
                (Some ["t/y"; "t/x"]) [None] (player_load sample_files sample_state))
    as [Hloop Hturn].
  split; [exact Hloop |]. split; [exact Hturn |].
  assert (H1 : playlist (player_load sample_files sample_state)
               = "s/a.png" :: ["s/b.mp4"]) by reflexivity.
  assert (H2 : playlist_pos (player_load sample_files sample_state) = 0%Z)
    by reflexivity.
  assert (H3 : "s/a.png" ∈ disk (player_load sample_files sample_state))
    by (apply (bool_decide_unpack _); vm_compute; exact I).
  assert (H4 : (QUIT_CHOICE ∉ ["t/y"; "t/x"]) /\ NoDup ["t/y"; "t/x"]
               /\ forall d, d ∈ ["t/y"; "t/x"] ->
                            d ∈ sample_dirs
                            /\ join d (basename "s/a.png") <> "s/a.png").
  { split_and!; try (apply (bool_decide_unpack _); vm_compute; exact I).
    intros d Hd. apply (bool_decide_unpack _).
    repeat (apply elem_of_cons in Hd as [->|Hd]; [vm_compute; exact I |]).
    inversion Hd. }
  destruct (Hturn H1 H2 H3 H4) as (Hres & Hstep & _). now split.
Defined.

(** C5: when the decision loop of the current file falls through (by
    cancellation or by the single-choice break), the turn goes on to the
    delete step: with the delete option the file is not on disk after the
    turn, and its deletion is logged if it was there; without the option the
    turn cannot fail, the disk is what the decision loop left, and the file
    is on disk if it was before. *)
Theorem delete_flag_after_decision (dlist : list string) (delete single : bool)
  (total n : nat) (cur : string) (rest : list string)
  (script : list (option (list string))) (st : state) :
  playlist st = cur :: rest -> playlist_pos st = 0%Z ->
  let loop := decision_loop single cur script false (dlist ++ [QUIT_CHOICE])
                (emit (Progress n total) st) in
  (exists x, loop.1 = Next x) ->
  let res := sort_one dlist delete single total n script st in
  if delete then
    (cur ∉ disk res.2)
    /\ (cur ∈ disk st ->
        Removed cur ∈ new_events st res.2 /\ exists script', res.1 = Next script')
  else
    (exists script', res.1 = Next script')
    /\ disk res.2 = disk loop.2
    /\ (cur ∈ disk st -> cur ∈ disk res.2).
Proof.
  intros Hpl Hpos. cbv zeta. intros [[[ex pool'] script'] Hloop].
  unfold sort_one. rewrite (player_current_head cur rest st Hpl Hpos).
  destruct (decision_loop_frame single cur script false (dlist ++ [QUIT_CHOICE])
              (emit (Progress n total) st))
    as (evs & (Hlog & Hpl1 & Hpos1 & Hdisk & _) & _).
  destruct (decision_loop single cur script false (dlist ++ [QUIT_CHOICE])
              (emit (Progress n total) st)) as [fl st1].
  cbn [fst snd] in *. subst fl.
  destruct (advance_head delete cur rest st1) as
    (adv & Halog & _ & _ & Hadisk & Hflag & Hres); [now rewrite Hpl1 | now rewrite Hpos1 |].
  destruct (advance delete cur st1) as [fl2 st2]. cbn [fst snd] in *.
  assert (Hnew : new_events st st2 = Progress n total :: evs ++ adv).
  { apply new_events_app. rewrite Halog, Hlog. cbn. now rewrite <- !app_assoc. }
  destruct Hres as [->|(-> & -> & Hgone)]; cbn [fst snd].
  - destruct delete.
    + split; [exact Hflag |]. intros Hcur.
      destruct (Hadisk cur (Hdisk cur Hcur)) as [?|[_ Hrm]]; [contradiction |].
      split; [|now exists script'].
      rewrite Hnew. apply elem_of_cons. right. apply elem_of_app. now right.
    + split_and!; [now exists script' | exact Hflag |].
      intros Hcur. rewrite Hflag. now apply Hdisk.
  - split; [exact Hflag |]. intros Hcur. exfalso. apply Hgone, Hdisk, Hcur.
Qed.

Lemma delete_flag_after_decision_witness :
  let st := player_load sample_files sample_state in
  let script := [Some ["t/x"]; None; None] in
  let loop := decision_loop false "s/a.png" script false (sample_dirs ++ [QUIT_CHOICE])
                (emit (Progress 2 2) st) in
  let res := sort_one sample_dirs true false 2 2 script st in
  playlist st = "s/a.png" :: ["s/b.mp4"] /\ playlist_pos st = 0%Z
  /\ (exists x, loop.1 = Next x)
  /\ ("s/a.png" ∉ disk res.2)
  /\ ("s/a.png" ∈ disk st ->
      Removed "s/a.png" ∈ new_events st res.2 /\ exists script', res.1 = Next script').
Proof.
  cbv zeta.
  assert (H1 : playlist (player_load sample_files sample_state)
               = "s/a.png" :: ["s/b.mp4"]) by reflexivity.
  assert (H2 : playlist_pos (player_load sample_files sample_state) = 0%Z)
    by reflexivity.
  assert (H3 : exists x,
             (decision_loop false "s/a.png" [Some ["t/x"]; None; None] false
                (sample_dirs ++ [QUIT_CHOICE])
                (emit (Progress 2 2) (player_load sample_files sample_state))).1
             = Next x) by (eexists; vm_compute; reflexivity).
  split; [exact H1 |]. split; [exact H2 |]. split; [exact H3 |].
  exact (delete_flag_after_decision sample_dirs true false 2 2 "s/a.png" ["s/b.mp4"]
           [Some ["t/x"]; None; None] (player_load sample_files sample_state)
           H1 H2 H3).
Defined.

End PerFile.

(** ** The scans and the entry point *)

Section Scans.



(** Beyond ASCII: the scanner takes a file whose extension is written with
    the Kelvin sign for the k of [.mkv]. *)
Example gather_files_kelvin_sign :
  let name := ("a.m" ++ kelvin_sign ++ "v")%string in
  ascii_name name = false
  /\ (gather_files "s" (Lcons name File Lnil) false).2 = [FoundMedia (join "s" name)].
Proof. split; vm_compute; reflexivity. Qed.

(** The sample tree: the media files of [s] itself, upper case included. *)
Example gather_files_sample :
  (gather_files "s" sample_tree false).2 = [FoundMedia "s/a.png"; FoundMedia "s/F.JPeG"]
  /\ (gather_files "s" sample_tree true).2
     = [FoundMedia "s/a.png"; FoundMedia "s/d/b.MP4"; FoundMedia "s/F.JPeG"].
Proof. split; vm_compute; reflexivity. Qed.

Lemma main_scan_dlist (stat : string -> option node) (source target : string)
  (recursive : bool) (flist dlist : gset string) :
  (main_scan stat source target recursive).1 = Next (flist, dlist) ->
  exists lt, stat target = Some (Dir lt) /\ dlist = (gather_directories target lt).1.
Proof.
  unfold main_scan, os_listdir.
  destruct (stat source) as [[| |ls]|]; try discriminate.
  destruct (gather_files source ls recursive) as [fl out_f].
  destruct (stat target) as [[| |lt]|]; try discriminate.
  destruct (gather_directories target lt) as [dl out_d] eqn:Hg. cbn.
  intros [= _ <-]. exists lt. split; [reflexivity | now rewrite Hg].
Qed.

(** C8: [gather_directories] returns the directories below [root], of every
    depth, and nothing else; [root] is not among them; and the directories
    that [main] scans are those of the target whatever the recursive flag. *)
Theorem gather_directories_strict_descendants (root : string) (l : listing) :
  valid_names l = true ->
  (forall p, p ∈ (gather_directories root l).1 <-> strict_descendant_dir root l p)
  /\ (root ∉ (gather_directories root l).1)
  /\ (forall stat source r1 r2 f1 d1 f2 d2,
        stat root = Some (Dir l) ->
        (main_scan stat source root r1).1 = Next (f1, d1) ->
        (main_scan stat source root r2).1 = Next (f2, d2) ->
        d1 = (gather_directories root l).1 /\ d2 = d1).
Proof.
  intros Hv. split_and!.
  - intros p. apply gather_directories_walk.
  - intros [sub Hw]%gather_directories_walk.
    destruct (walk_shape _ _ _ _ Hw Hv) as [Hlen _]. lia.
  - intros stat source r1 r2 f1 d1 f2 d2 Hroot H1 H2.
    apply main_scan_dlist in H1 as (l1 & E1 & ->), H2 as (l2 & E2 & ->).
    rewrite Hroot in E1, E2. injection E1 as <-. injection E2 as <-. now split.
Qed.

Lemma gather_directories_strict_descendants_witness :
  valid_names sample_tree = true
  /\ (forall p, p ∈ (gather_directories "s" sample_tree).1
                <-> strict_descendant_dir "s" sample_tree p)
  /\ ("s" ∉ (gather_directories "s" sample_tree).1)
  /\ (forall stat source r1 r2 f1 d1 f2 d2,
        stat "s" = Some (Dir sample_tree) ->
        (main_scan stat source "s" r1).1 = Next (f1, d1) ->
        (main_scan stat source "s" r2).1 = Next (f2, d2) ->
        d1 = (gather_directories "s" sample_tree).1 /\ d2 = d1).
Proof.
  split; [reflexivity |].
  apply (gather_directories_strict_descendants "s" sample_tree). reflexivity.
Defined.

(** The sample tree: both depths are found, the deeper directory first. *)
Example gather_directories_sample :
  (gather_directories "s" sample_tree).2 = [FoundTarget "s/d/e"; FoundTarget "s/d"].
Proof. vm_compute. reflexivity. Qed.

(** When the target is not a directory, [main] reports it and goes on: the
    source is scanned in full, and the run ends in the exception that
    [os.listdir] raises on the target. *)
Lemma main_goes_on_without_target (stat : string -> option node)
  (source target : string) (ls : listing) (recursive delete single : bool)
  (script : list (option (list string))) :
  stat source = Some (Dir ls) -> os_path_isdir stat target = false ->
  let res := main stat source target recursive delete single script in
  (exists e, res.1 = ScanCrashed e)
  /\ log res.2 = TargetNotDir target :: (gather_files source ls recursive).2.
Proof.
  intros Hs Ht. cbv zeta. unfold main, main_scan, os_listdir, os_path_isdir in *.
  rewrite Hs. cbn [isdir]. destruct (gather_files source ls recursive) as [fl out_f].
  destruct (stat target) as [[| |lt]|]; try discriminate; cbn; eauto.
Qed.

(** C6 fails on the code: with a source directory [s] and a regular file [t]
    as target, [main] prints that the target is not a directory, then scans
    the source all the same and crashes in the scan of the target. *)
Theorem main_scans_after_failed_check :
  let res := main sample_stat "s" "t" false false false [] in
  os_path_isdir sample_stat "t" = false
  /\ res.1 = ScanCrashed (NotADirectoryError "t")
  /\ log res.2 = [TargetNotDir "t"; FoundMedia "s/a.png"; FoundMedia "s/F.JPeG"].
Proof. cbv zeta. split_and!; vm_compute; reflexivity. Qed.

(** The scenario of the specification: [a.png] goes to [dirX], [b.mp4] to
    [dirY], nothing is deleted, the run completes. *)
Example end_to_end :
  let st := mkState {[ "src/a.png"; "src/b.mp4" ]} [] (-1) [] in
  let script := [Some ["tgt/dirX"]; None; Some ["tgt/dirY"]; None] in
  let res := sort_files ["src/a.png"; "src/b.mp4"] ["tgt/dirX"; "tgt/dirY"]
               false false script st in
  res.1 = Finished
  /\ Forall (fun p => p ∈ disk res.2)
       ["tgt/dirX/a.png"; "tgt/dirY/b.mp4"; "src/a.png"; "src/b.mp4"].
Proof.
  cbv zeta. split; [vm_compute; reflexivity |].
  apply (bool_decide_unpack _). vm_compute. exact I.
Qed.

End Scans.

(** * Further properties *)

(** ** The scans in full *)

Section ScansInFull.

Lemma gather_files_out_cons (current name : string) (n : node) (rest : listing)
  (recursive : bool) :
  (gather_files current (Lcons name n rest) recursive).2 =
  match n with
  | Dir sub => if recursive then (gather_files (join current name) sub recursive).2 else []
  | _ => []
  end
  ++ (if isfile n && is_media (join current name) then [FoundMedia (join current name)]
      else [])
  ++ (gather_files current rest recursive).2.
Proof.
  cbn [gather_files].
  destruct (gather_files current rest recursive) as [r3 o3].
  destruct (isfile n && is_media (join current name));
    destruct n as [| |sub]; try reflexivity;
    destruct recursive; try reflexivity;
    destruct (gather_files (join current name) sub true); reflexivity.
Qed.

Lemma gather_directories_out_cons (current name : string) (n : node) (rest : listing) :
  (gather_directories current (Lcons name n rest)).2 =
  match n with
  | Dir sub => (gather_directories (join current name) sub).2
               ++ [FoundTarget (join current name)]
  | _ => []
  end
  ++ (gather_directories current rest).2.
Proof.
  cbn [gather_directories].
  destruct (gather_directories current rest) as [r2 o2].
  destruct n as [| |sub]; try reflexivity.
  destruct (gather_directories (join current name) sub); reflexivity.
Qed.

(** The recursive scan finds the media files of every depth. *)
Lemma gather_files_walk (l : listing) :
  forall root p,
    p ∈ (gather_files root l true).1 <-> walk root l p File /\ is_media p = true.
Proof.
  induction l as [| |sub IHsub| |name n IHn rest IHrest]
    using listing_node_ind
    with (P := fun n => match n with
                        | Dir sub => forall root p,
                            p ∈ (gather_files root sub true).1 <->
                            walk root sub p File /\ is_media p = true
                        | _ => True
                        end); try exact I.
  - exact IHsub.
  - intros root p. cbn. split; [intros H; now apply not_elem_of_empty in H |].
    intros [Hw _]. now apply walk_nil in Hw.
  - intros root p. rewrite gather_files_cons, walk_cons. split.
    + intros [[Hsub|Hfile]%elem_of_union|Hin]%elem_of_union.
      * destruct n as [| |sub]; try now apply not_elem_of_empty in Hsub.
        apply IHn in Hsub as [Hw Hm]. split; [|exact Hm]. right; left. now exists sub.
      * destruct n; cbn [isfile andb] in Hfile;
          try now apply not_elem_of_empty in Hfile.
        destruct (is_media (join root name)) eqn:Hm;
          [|now apply not_elem_of_empty in Hfile].
        apply elem_of_singleton in Hfile. subst p. split; [now left | exact Hm].
      * apply IHrest in Hin as [Hw Hm]. split; [now right; right | exact Hm].
    + intros [[[-> <-]|[(sub & -> & Hw)|Hw]] Hm].
      * cbn [isfile andb]. rewrite Hm.
        apply elem_of_union_l, elem_of_union_r, elem_of_singleton. reflexivity.
      * apply elem_of_union_l, elem_of_union_l, IHn. now split.
      * apply elem_of_union_r, IHrest. now split.
Qed.

(** X1: with the recursive flag, [gather_files] returns the regular files of
    every depth below the root whose path has a whitelisted extension, and
    nothing else. *)
Theorem gather_files_recursive_exact (root : string) (l : listing) (p : string) :
  p ∈ (gather_files root l true).1 <-> walk root l p File /\ is_media p = true.
Proof. apply gather_files_walk. Qed.

(** The flat scan finds no more than the recursive one. *)
Lemma gather_files_flat_subseteq (root : string) (l : listing) :
  (gather_files root l false).1 ⊆ (gather_files root l true).1.
Proof.
  induction l as [|name n rest IH]; [reflexivity |].
  rewrite !gather_files_cons. intros p [[Hsub|Hfile]%elem_of_union|Hin]%elem_of_union.
  - destruct n; now apply not_elem_of_empty in Hsub.
  - now apply elem_of_union_l, elem_of_union_r.
  - now apply elem_of_union_r, IH.
Qed.

(** X2: the recursive flag only adds files: what the flat scan finds, the
    recursive scan finds too. *)
Theorem gather_files_flag_monotone (root : string) (l : listing) :
  (gather_files root l false).1 ⊆ (gather_files root l true).1.
Proof. apply gather_files_flat_subseteq. Qed.

(** The lines of [gather_files] and the set it returns. *)
Lemma gather_files_out_elem (recursive : bool) (l : listing) :
  forall root e,
    e ∈ (gather_files root l recursive).2 <->
    exists p, e = FoundMedia p /\ p ∈ (gather_files root l recursive).1.
Proof.
  induction l as [| |sub IHsub| |name n IHn rest IHrest]
    using listing_node_ind
    with (P := fun n => match n with
                        | Dir sub => forall root e,
                            e ∈ (gather_files root sub recursive).2 <->
                            exists p, e = FoundMedia p
                                      /\ p ∈ (gather_files root sub recursive).1
                        | _ => True
                        end); try exact I.
  - exact IHsub.
  - intros root e. cbn. split; [intros H; inversion H |].
    intros (p & _ & H). now apply not_elem_of_empty in H.
  - intros root e. rewrite gather_files_cons, gather_files_out_cons. split.
    + intros [Hsub|[Hfile|Hin]%elem_of_app]%elem_of_app.
      * destruct n as [| |sub]; try (now inversion Hsub).
        destruct recursive; [|now inversion Hsub].
        apply IHn in Hsub as (p & -> & Hp). exists p.
        split; [reflexivity | now apply elem_of_union_l, elem_of_union_l].
      * destruct (isfile n && is_media (join root name)); [|now inversion Hfile].
        apply list_elem_of_singleton in Hfile. subst e. exists (join root name).
        split; [reflexivity |].
        apply elem_of_union_l, elem_of_union_r, elem_of_singleton. reflexivity.
      * apply IHrest in Hin as (p & -> & Hp). exists p.
        split; [reflexivity | now apply elem_of_union_r].
    + intros (p & -> & [[Hsub|Hfile]%elem_of_union|Hin]%elem_of_union).
      * apply elem_of_app. left.
        destruct n as [| |sub]; try (now apply not_elem_of_empty in Hsub).
        destruct recursive; [|now apply not_elem_of_empty in Hsub].
        apply IHn. now exists p.
      * apply elem_of_app. right. apply elem_of_app. left.
        destruct (isfile n && is_media (join root name));
          [|now apply not_elem_of_empty in Hfile].
        apply elem_of_singleton in Hfile. subst p. left.
      * apply elem_of_app. right. apply elem_of_app. right.
        apply IHrest. now exists p.
Qed.

(** X3: [gather_files] prints a line for each file it returns and for
    nothing else, whatever the flag. *)
Theorem gather_files_prints_what_it_returns (recursive : bool) (root : string)
  (l : listing) (e : event) :
  e ∈ (gather_files root l recursive).2 <->
  exists p, e = FoundMedia p /\ p ∈ (gather_files root l recursive).1.
Proof. apply gather_files_out_elem. Qed.

(** The lines of [gather_directories] and the set it returns. *)
Lemma gather_directories_out_elem (l : listing) :
  forall root e,
    e ∈ (gather_directories root l).2 <->
    exists p, e = FoundTarget p /\ p ∈ (gather_directories root l).1.
Proof.
  induction l as [| |sub IHsub| |name n IHn rest IHrest]
    using listing_node_ind
    with (P := fun n => match n with
                        | Dir sub => forall root e,
                            e ∈ (gather_directories root sub).2 <->
                            exists p, e = FoundTarget p
                                      /\ p ∈ (gather_directories root sub).1
                        | _ => True
                        end); try exact I.
  - exact IHsub.
  - intros root e. cbn. split; [intros H; inversion H |].
    intros (p & _ & H). now apply not_elem_of_empty in H.
  - intros root e. rewrite gather_directories_cons, gather_directories_out_cons. split.
    + intros [Hhere|Hin]%elem_of_app.
      * destruct n as [| |sub]; try (now inversion Hhere).
        apply elem_of_app in Hhere as [Hdeep|Hsub].
        -- apply IHn in Hdeep as (p & -> & Hp). exists p.
           split; [reflexivity | now apply elem_of_union_l, elem_of_union_l].
        -- apply list_elem_of_singleton in Hsub. subst e. exists (join root name).
           split; [reflexivity |].
           apply elem_of_union_l, elem_of_union_r, elem_of_singleton. reflexivity.
      * apply IHrest in Hin as (p & -> & Hp). exists p.
        split; [reflexivity | now apply elem_of_union_r].
    + intros (p & -> & [Hhere|Hin]%elem_of_union).
      * apply elem_of_app. left.
        destruct n as [| |sub]; try (now apply not_elem_of_empty in Hhere).
        apply elem_of_app.
        apply elem_of_union in Hhere as [Hdeep|Hsub%elem_of_singleton].
        -- left. apply IHn. now exists p.
        -- right. subst p. left.
      * apply elem_of_app. right. apply IHrest. now exists p.
Qed.

(** X4: [gather_directories] prints a line for each directory it returns and
    for nothing else. *)
Theorem gather_directories_prints_what_it_returns (root : string) (l : listing)
  (e : event) :
  e ∈ (gather_directories root l).2 <->
  exists p, e = FoundTarget p /\ p ∈ (gather_directories root l).1.
Proof. apply gather_directories_out_elem. Qed.

Lemma distinct_names_cons (name : string) (n : node) (rest : listing) :
  distinct_names (Lcons name n rest) = true ->
  (forall m, (name, m) ∉ entries rest)
  /\ match n with Dir sub => distinct_names sub = true | _ => True end
  /\ distinct_names rest = true.
Proof.
  cbn [distinct_names]. intros [[H1 H2]%andb_true_iff H3]%andb_true_iff.
  split_and!; [| destruct n; trivial | exact H3].
  apply negb_true_iff, py_in_false in H1. intros m Hin. apply H1.
  apply list_elem_of_fmap. now exists (name, m).
Qed.

Lemma entries_functional (l : listing) (name : string) (n1 n2 : node) :
  distinct_names l = true ->
  (name, n1) ∈ entries l -> (name, n2) ∈ entries l -> n1 = n2.
Proof.
  induction l as [|name' n' rest IH]; cbn [entries]; intros Hd H1 H2; [inversion H1 |].
  apply distinct_names_cons in Hd as (Hfresh & _ & Hrest).
  apply elem_of_cons in H1 as [E1|H1], H2 as [E2|H2].
  - congruence.
  - injection E1 as -> ->. now apply Hfresh in H2.
  - injection E2 as -> ->. now apply Hfresh in H1.
  - now apply IH.
Qed.

Lemma distinct_names_entry (l : listing) (name : string) (sub : listing) :
  distinct_names l = true -> (name, Dir sub) ∈ entries l -> distinct_names sub = true.
Proof.
  induction l as [|name' n' rest IH]; cbn [entries]; intros Hd Hin; [inversion Hin |].
  apply distinct_names_cons in Hd as (_ & Hsub & Hrest).
  apply elem_of_cons in Hin as [E|Hin]; [|now apply IH].
  injection E as -> <-. exact Hsub.
Qed.

Lemma split_first_component (a : string) :
  forall b s t,
    contains sep a = false -> contains sep b = false ->
    (a ++ String sep s = b ++ String sep t)%string -> a = b /\ s = t.
Proof.
  induction a as [|x a IH]; intros [|y b] s t Ha Hb; rewrite ?append_nil, ?append_cons.
  - now intros [= ->].
  - intros [= <- _]. cbn in Hb. discriminate.
  - intros [= -> _]. cbn in Ha. discriminate.
  - intros [= -> E]. cbn in Ha, Hb.
    apply orb_false_iff in Ha as [_ Ha], Hb as [_ Hb].
    destruct (IH b s t Ha Hb E) as [-> ->]. now split.
Qed.

(** A path found below a directory is the path of one entry of it, or goes
    through one directory entry of it. *)
Lemma walk_first (current : string) (l : listing) (p : string) (n : node) :
  walk current l p n -> valid_names l = true ->
  exists name m, (name, m) ∈ entries l /\ valid_name name = true
    /\ ((p = (join_prefix current ++ name)%string /\ m = n)
        \/ exists sub s, m = Dir sub /\ valid_names sub = true
                         /\ walk (join current name) sub p n
                         /\ p = (join_prefix current ++ (name ++ String sep s))%string).
Proof.
  intros Hw Hv. inversion Hw as [? ? name ? Hin|? ? name sub ? ? Hin Hw']; subst.
  - destruct (valid_names_entry _ _ _ Hv Hin) as [Hname _].
    exists name, n. split_and!; [exact Hin | exact Hname |].
    left. split; [now apply join_valid | reflexivity].
  - destruct (valid_names_entry _ _ _ Hv Hin) as [Hname Hsub].
    exists name, (Dir sub). split_and!; [exact Hin | exact Hname |].
    right. destruct (walk_shape _ _ _ _ Hw' Hsub) as (_ & name' & rest & _ & Hp).
    exists sub, (name' ++ rest)%string. split_and!; try done.
    rewrite Hp, (join_prefix_join _ _ Hname), !append_assoc. reflexivity.
Qed.

(** In a tree with the names of a filesystem, a path leads to one node. *)
Lemma walk_functional (current : string) (l : listing) (p : string) (n1 : node) :
  walk current l p n1 ->
  forall n2, valid_names l = true -> distinct_names l = true ->
             walk current l p n2 -> n1 = n2.
Proof.
  induction 1 as [current l name n1 Hin|current l name sub p n1 Hin Hw IH];
    intros n2 Hv Hd Hw2.
  - destruct (valid_names_entry _ _ _ Hv Hin) as [Hname _].
    destruct (valid_name_inv _ Hname) as [_ Hsep].
    destruct (walk_first _ _ _ _ Hw2 Hv)
      as (name2 & m & Hin2 & Hname2 & [[Hp ->]|(sub2 & s & -> & _ & _ & Hp)]);
      rewrite (join_valid _ _ Hname) in Hp; apply append_inj_r in Hp.
    + subst name2. exact (entries_functional _ _ _ _ Hd Hin Hin2).
    + rewrite Hp, contains_append in Hsep. cbn in Hsep.
      now rewrite orb_true_r in Hsep.
  - destruct (valid_names_entry _ _ _ Hv Hin) as [Hname Hsub].
    destruct (valid_name_inv _ Hname) as [_ Hsep].
    destruct (walk_shape _ _ _ _ Hw Hsub) as (_ & name' & rest & _ & Hp1).
    rewrite (join_prefix_join _ _ Hname), !append_assoc in Hp1.
    destruct (walk_first _ _ _ _ Hw2 Hv)
      as (name2 & m & Hin2 & Hname2 & [[Hp ->]|(sub2 & s & -> & Hsub2 & Hw2' & Hp)]);
      rewrite Hp1 in Hp; apply append_inj_r in Hp.
    + destruct (valid_name_inv _ Hname2) as [_ Hsep2].
      rewrite <- Hp, contains_append in Hsep2. cbn in Hsep2.
      now rewrite orb_true_r in Hsep2.
    + destruct (valid_name_inv _ Hname2) as [_ Hsep2].
      change (String sep "" ++ (name' ++ rest))%string
        with (String sep (name' ++ rest)) in Hp.
      destruct (split_first_component _ _ _ _ Hsep Hsep2 Hp) as [<- _].
      pose proof (entries_functional _ _ _ _ Hd Hin Hin2) as [= <-].
      apply IH; [exact Hsub | now apply (distinct_names_entry l name) | exact Hw2'].
Qed.

(** X5: on a tree with the names of a filesystem (not empty, no separator,
    no name twice in a directory), no path is both a file that
    [gather_files] returns and a directory that [gather_directories]
    returns, whatever the flag. *)
Theorem gathered_files_are_not_directories (root : string) (l : listing)
  (recursive : bool) :
  valid_names l = true -> distinct_names l = true ->
  (gather_files root l recursive).1 ## (gather_directories root l).1.
Proof.
  intros Hv Hd p Hfile [sub Hdir]%gather_directories_walk.
  assert (Hrec : p ∈ (gather_files root l true).1).
  { destruct recursive; [exact Hfile | now apply gather_files_flat_subseteq]. }
  apply gather_files_walk in Hrec as [Hw _].
  pose proof (walk_functional _ _ _ _ Hw _ Hv Hd Hdir). discriminate.
Qed.

Lemma gathered_files_are_not_directories_witness :
  valid_names sample_tree = true /\ distinct_names sample_tree = true
  /\ (gather_files "s" sample_tree true).1 ## (gather_directories "s" sample_tree).1.
Proof.
  split; [reflexivity |]. split; [reflexivity |].
  apply (gathered_files_are_not_directories "s" sample_tree true); reflexivity.
Defined.

End ScansInFull.

(** ** The log of the engine, read by kind of event *)

Section Projections.

Lemma plays_app (a b : list event) : plays (a ++ b) = plays a ++ plays b.
Proof. induction a as [|[] a IH]; cbn; now rewrite ?IH. Qed.

Lemma removals_app (a b : list event) : removals (a ++ b) = removals a ++ removals b.
Proof. induction a as [|[] a IH]; cbn; now rewrite ?IH. Qed.

Lemma progress_app (a b : list event) : progress (a ++ b) = progress a ++ progress b.
Proof. induction a as [|[] a IH]; cbn; now rewrite ?IH. Qed.

Lemma quits_app (a b : list event) : quits (a ++ b) = quits a + quits b.
Proof. induction a as [|[] a IH]; cbn; now rewrite ?IH. Qed.

Lemma copies_app (a b : list event) : copies (a ++ b) = copies a ++ copies b.
Proof. induction a as [|[] a IH]; cbn; now rewrite ?IH. Qed.

Lemma copies_map_copied (f : string) (done : list string) :
  copies (map (Copied f) done) = map (pair f) done.
Proof. induction done as [|d done IH]; cbn; now rewrite ?IH. Qed.

Lemma removals_elem (x : string) (evs : list event) :
  x ∈ removals evs <-> Removed x ∈ evs.
Proof.
  induction evs as [|e evs IH]; [split; inversion 1 |].
  destruct e; cbn; rewrite ?elem_of_cons, IH; split;
    try (intros [?|?]; [discriminate | assumption]); try (intros ?; now right).
  - intros [->|?]; [now left | now right].
  - intros [[= ->]|?]; [now left | now right].
Qed.

Lemma copies_elem (f d : string) (evs : list event) :
  (f, d) ∈ copies evs <-> Copied f d ∈ evs.
Proof.
  induction evs as [|e evs IH]; [split; inversion 1 |].
  destruct e; cbn; rewrite ?elem_of_cons, IH; split;
    try (intros [?|?]; [discriminate | assumption]); try (intros ?; now right).
  - intros [[= -> ->]|?]; [now left | now right].
  - intros [[= -> ->]|?]; [now left | now right].
Qed.

(** The rounds of a decision loop play nothing, delete nothing, print no
    progress and do not quit the player. *)
Lemma ask_events_silent (f : string) (pool : list string) (body : list event) :
  Forall (ask_event f pool) body ->
  plays body = [] /\ removals body = [] /\ progress body = [] /\ quits body = 0.
Proof.
  induction 1 as [|e body He _ IH]; [now split_and! |].
  destruct e; cbn in He |- *; try contradiction; exact IH.
Qed.

Lemma ask_event_mono (f : string) (pool pool' : list string) (e : event) :
  pool' ⊆+ pool -> ask_event f pool' e -> ask_event f pool e.
Proof.
  intros Hsub. destruct e; cbn; try done.
  intros [-> Hp]. split; [reflexivity | now transitivity pool'].
Qed.

Lemma ask_copies (f : string) (pool done : list string) :
  QUIT_CHOICE ∉ done -> Forall (ask_event f pool) (map (Copied f) done).
Proof.
  intros Hq. apply Forall_forall. intros e (d & -> & Hd)%list_elem_of_fmap.
  split; [reflexivity | intros ->; contradiction].
Qed.

End Projections.

(** ** What a decision loop does to the world *)

Section Effects.

(** The copy loop in full: the labels copied to are a front part of the
    answer, the disk gains their copies and nothing else, and the loop ends
    by falling through, with the pool less those labels, or by an exception
    of a file operation or of [list.remove]. *)
Lemma copy_choices_effects (f : string) (choice : list string) :
  forall pool st,
    let res := copy_choices f choice pool st in
    exists done todo,
      choice = done ++ todo
      /\ log res.2 = log st ++ map (Copied f) done
      /\ (forall x, x ∈ disk res.2 <->
                    x ∈ disk st \/ x ∈ map copy_target (map (pair f) done))
      /\ match res.1 with
         | Next pool' => todo = [] /\ pool ≡ₚ done ++ pool'
         | Raise e => engine_error e
         | _ => False
         end.
Proof.
  induction choice as [|cho choice IH]; intros pool st; cbv zeta; cbn [copy_choices].
  - exists [], []. cbn. rewrite app_nil_r. split_and!; try done.
    intros x. split; [now left | intros [?|H]; [assumption | inversion H]].
  - unfold shutil_copy. case_bool_decide as Hsrc.
    2:{ exists [], (cho :: choice). cbn. rewrite app_nil_r. split_and!; try done.
        intros x. split; [now left | intros [?|H]; [assumption | inversion H]]. }
    destruct (String.eqb (join cho (basename f)) f).
    { exists [], (cho :: choice). cbn. rewrite app_nil_r. split_and!; try done.
      intros x. split; [now left | intros [?|H]; [assumption | inversion H]]. }
    destruct (py_remove cho pool) as [pool1|] eqn:Hrm.
    2:{ exists [cho], choice. cbn. split_and!; try done.
        intros x. rewrite elem_of_union, elem_of_singleton, list_elem_of_singleton.
        reflexivity. }
    specialize (IH pool1 (emit (Copied f cho)
                            (set_disk (disk st ∪ {[join cho (basename f)]}) st))).
    cbv zeta in IH. destruct IH as (done & todo & -> & Hlog & Hdisk & Hfl).
    exists (cho :: done), todo. cbn in *. rewrite Hlog, <- app_assoc.
    split_and!; try done.
    + intros x. rewrite Hdisk, elem_of_union, elem_of_singleton, elem_of_cons.
      unfold copy_target at 2. cbn. tauto.
    + destruct (copy_choices f (done ++ todo) pool1 _).1 as [pool'| | |]; auto.
      destruct Hfl as [-> Hperm]. split; [reflexivity |].
      rewrite (py_remove_Some _ _ _ Hrm). now rewrite Hperm.
Qed.

(** The decision loop in full: its log is the rounds, then the two events of
    quitting if it returned; the disk gains the copies of the rounds and
    nothing else; when it falls through, the pool it leaves is the pool it
    started with less the labels copied to; an exception is one of a file
    operation or of [list.remove]. *)
Lemma decision_loop_shape (single : bool) (f : string)
  (script : list (option (list string))) (cancelled : bool) (pool : list string)
  (st : state) :
  let res := decision_loop single f script cancelled pool st in
  exists body,
    log res.2 = log st ++ body ++ quit_ending res.1
    /\ Forall (ask_event f pool) body
    /\ (forall x, x ∈ disk res.2 <->
                  x ∈ disk st \/ x ∈ map copy_target (copies body))
    /\ match res.1 with
       | Next (_, pool', _) => pool ≡ₚ (copies body).*2 ++ pool'
       | Raise e => engine_error e
       | _ => True
       end.
Proof.
  cbv zeta.
  functional induction (decision_loop single f script cancelled pool st);
    cbn [fst snd].
  all: try match goal with
       | IH : exists _ : list event, _ |- _ =>
           destruct IH as (body & Hlog & Hask & Hdisk & Hend)
       end.
  all: try match goal with
       | H : copy_choices ?f ?c ?p ?s = _ |- _ =>
           let Hc := fresh "Hc" in
           pose proof (copy_choices_effects f c p s) as Hc; cbv zeta in Hc;
           rewrite H in Hc; cbn [fst snd log emit disk] in Hc;
           destruct Hc as (done & todo & Hsplit & Hclog & Hcdisk & Hcend)
       end.
  all: try match goal with
       | H : py_in QUIT_CHOICE _ = false |- _ => apply py_in_false in H
       end.
  - exists []. cbn. rewrite app_nil_r. split_and!; try done.
    intros x. split; [now left | intros [?|H]; [assumption | inversion H]].
  - exists []. cbn. rewrite app_nil_r. split_and!; try done.
    intros x. split; [now left | intros [?|H]; [assumption | inversion H]].
  - exists []. cbn. rewrite app_nil_r. split_and!; try done.
    intros x. split; [now left | intros [?|H]; [assumption | inversion H]].
  - exists [Prompt cur_file (_x :: _x0) (Some [])]. cbn. split_and!; try done.
    + now repeat constructor.
    + intros x. split; [now left | intros [?|H]; [assumption | inversion H]].
  - exists (Prompt cur_file (_x :: _x0) (Some []) :: body). cbn [copies app].
    split_and!; try done.
    + rewrite Hlog. cbn. now rewrite <- !app_assoc.
    + now constructor.
  - exists [Prompt cur_file (_x :: _x0) (Some (c :: cs))]. cbn. split_and!; try done.
    + now rewrite <- !app_assoc.
    + now repeat constructor.
    + intros x. split; [now left | intros [?|H]; [assumption | inversion H]].
  - destruct Hcend as [-> Hperm]. rewrite app_nil_r in Hsplit. subst done.
    exists (Prompt cur_file (_x :: _x0) (Some (c :: cs)) :: map (Copied cur_file) (c :: cs)).
    cbn [quit_ending copies]. rewrite copies_map_copied, app_nil_r.
    split_and!.
    + rewrite Hclog. now rewrite <- app_assoc.
    + constructor; [now split |]. now apply ask_copies.
    + exact Hcdisk.
    + rewrite <- list_fmap_compose. cbn [compose snd]. now rewrite list_fmap_id.
  - destruct Hcend as [-> Hperm]. rewrite app_nil_r in Hsplit. subst done.
    exists (Prompt cur_file (_x :: _x0) (Some (c :: cs))
            :: map (Copied cur_file) (c :: cs) ++ body).
    cbn [copies]. rewrite copies_app, copies_map_copied.
    assert (Hsub : cur_dirs' ⊆+ _x :: _x0).
    { rewrite Hperm. apply submseteq_inserts_l. reflexivity. }
    split_and!.
    + rewrite Hlog, Hclog. cbn. now rewrite <- !app_assoc.
    + constructor; [now split |]. apply Forall_app. split; [now apply ask_copies |].
      eapply Forall_impl; [exact Hask |]. intros e. now apply ask_event_mono.
    + intros x. rewrite Hdisk, Hcdisk, fmap_app, elem_of_app. tauto.
    + destruct (decision_loop _ _ _ _ _ _).1 as [[[ex pool''] scr]| | |]; try done.
      rewrite fmap_app, <- list_fmap_compose. cbn [compose snd].
      rewrite list_fmap_id, <- app_assoc, <- Hend. exact Hperm.
  - contradiction.
  - exists (Prompt cur_file (_x :: _x0) (Some (c :: cs)) :: map (Copied cur_file) done).
    cbn [quit_ending copies]. rewrite copies_map_copied, app_nil_r.
    split_and!; [| | exact Hcdisk | exact Hcend].
    + rewrite Hclog. now rewrite <- app_assoc.
    + constructor; [now split |]. apply ask_copies.
      intros Hq. apply e4. rewrite Hsplit. apply elem_of_app. now left.
  - contradiction.
  - exists [Prompt cur_file (_x :: _x0) None]. cbn. split_and!; try done.
    + now repeat constructor.
    + intros x. split; [now left | intros [?|H]; [assumption | inversion H]].
  - exists (Prompt cur_file (_x :: _x0) None :: body). cbn [copies app].
    split_and!; try done.
    + rewrite Hlog. cbn. now rewrite <- !app_assoc.
    + now constructor.
Qed.

End Effects.

(** ** The log of a run *)

Section RunShape.

Variables (dlist : list string) (delete single : bool).

(** The step after the decision loop, event by event. *)
Lemma advance_shape (f : string) (rest : list string) (st : state) :
  playlist st = f :: rest -> playlist_pos st = 0%Z ->
  let res := advance delete f st in
  in_step rest res.2
  /\ match res.1 with
     | Next _ =>
         log res.2 = log st ++ next_play rest ++ (if delete then [Removed f] else [])
         /\ (forall x, x ∈ disk res.2 <-> x ∈ disk st /\ (delete = true -> x <> f))
     | Raise e =>
         engine_error e /\ log res.2 = log st ++ next_play rest
         /\ disk res.2 = disk st
     | _ => False
     end.
Proof.
  intros Hpl Hpos. cbv zeta. unfold advance.
  destruct (playlist_remove_head f rest st Hpl Hpos) as (st1 & -> & Hstep & Hdisk & Hlog).
  fold (next_play rest) in Hlog. destruct delete.
  - unfold os_remove. case_bool_decide as Hin; cbn [fst snd].
    + split; [exact Hstep |]. cbn. rewrite Hlog, <- app_assoc. split; [reflexivity |].
      intros x. rewrite Hdisk, elem_of_difference, elem_of_singleton.
      split; [intros [? ?]; now split | intros [? H]; split; [assumption | now apply H]].
    + split; [exact Hstep |]. now split_and!.
  - cbn [fst snd]. split; [exact Hstep |]. rewrite app_nil_r. split; [exact Hlog |].
    intros x. rewrite Hdisk. split; [intros ?; now split | now intros [? _]].
Qed.

(** One turn of the outer loop, event by event. *)
Lemma sort_one_shape (total n : nat) (f : string) (rest : list string)
  (script : list (option (list string))) (st : state) :
  playlist st = f :: rest -> playlist_pos st = 0%Z ->
  let res := sort_one dlist delete single total n script st in
  exists body tail,
    log res.2 = log st ++ Progress n total :: body ++ tail
    /\ Forall (ask_event f (dlist ++ [QUIT_CHOICE])) body
    /\ (forall x, x ∈ disk res.2 <->
                  (x ∈ disk st \/ x ∈ map copy_target (copies body))
                  /\ x ∉ removals tail)
    /\ match res.1 with
       | Next _ =>
           in_step rest res.2
           /\ tail = next_play rest ++ (if delete then [Removed f] else [])
       | Return => tail = [Quitting; PlayerQuit]
       | Raise e => engine_error e /\ (tail = [] \/ tail = next_play rest)
       | Wait => tail = []
       end.
Proof.
  intros Hpl Hpos. cbv zeta. unfold sort_one.
  rewrite (player_current_head f rest st Hpl Hpos).
  set (st0 := emit (Progress n total) st).
  destruct (decision_loop_frame single f script false (dlist ++ [QUIT_CHOICE]) st0)
    as (evs & (_ & Hpl1 & Hpos1 & _ & _) & _).
  destruct (decision_loop_shape single f script false (dlist ++ [QUIT_CHOICE]) st0)
    as (body & Hlog & Hask & Hdisk & Hend).
  destruct (decision_loop single f script false (dlist ++ [QUIT_CHOICE]) st0)
    as [fl st1]. cbn [fst snd] in *.
  assert (Hnoplay : forall t, t = [] \/ t = next_play rest \/ t = [Quitting; PlayerQuit]
                              -> removals t = []).
  { intros t [-> | [-> | ->]]; try reflexivity. now destruct rest. }
  destruct fl as [[[ex pool'] script']| |e|]; cbn [fst snd quit_ending] in *.
  - destruct (advance_shape f rest st1) as [Hstep Hadv];
      [now rewrite Hpl1 | now rewrite Hpos1 |].
    destruct (advance delete f st1) as [fl2 st2]. cbn [fst snd] in *.
    destruct fl2 as [u| |e|]; try contradiction; cbn [fst snd].
    + destruct Hadv as [Halog Hadisk].
      exists body, (next_play rest ++ (if delete then [Removed f] else [])).
      split_and!; [| exact Hask | | exact Hstep | reflexivity].
      * rewrite Halog, Hlog, app_nil_r. cbn. now rewrite <- !app_assoc.
      * intros x. rewrite Hadisk, Hdisk, removals_app.
        assert (removals (next_play rest) = []) as -> by now destruct rest.
        destruct delete; cbn; rewrite ?list_elem_of_singleton, ?elem_of_nil;
          split; intros [? ?]; (split; [assumption |]); auto; discriminate.
    + destruct Hadv as (Herr & Halog & Hadisk).
      exists body, (next_play rest).
      split_and!; [| exact Hask | | exact Herr | now right].
      * rewrite Halog, Hlog, app_nil_r. cbn. now rewrite <- !app_assoc.
      * intros x. rewrite Hadisk, Hdisk, (Hnoplay (next_play rest)) by auto.
        rewrite elem_of_nil. tauto.
  - exists body, [Quitting; PlayerQuit]. split_and!; [| exact Hask | | reflexivity].
    + rewrite Hlog. cbn. now rewrite <- !app_assoc.
    + intros x. rewrite Hdisk. cbn. rewrite elem_of_nil. tauto.
  - exists body, []. split_and!; [| exact Hask | | exact Hend | now left].
    + rewrite Hlog. cbn. now rewrite <- !app_assoc.
    + intros x. rewrite Hdisk. cbn. rewrite elem_of_nil. tauto.
  - exists body, []. split_and!; [| exact Hask | | reflexivity].
    + rewrite Hlog. cbn. now rewrite <- !app_assoc.
    + intros x. rewrite Hdisk. cbn. rewrite elem_of_nil. tauto.
Qed.

Lemma queue_event_mono (f : string) (flist pool : list string) (e : event) :
  queue_event flist pool e -> queue_event (f :: flist) pool e.
Proof. destruct e; cbn; try done; intros [? ?]; (split; [now right | assumption]). Qed.

Lemma ask_queue_event (f : string) (flist pool : list string) (e : event) :
  ask_event f pool e -> queue_event (f :: flist) pool e.
Proof. destruct e; cbn; try done; intros [-> ?]; (split; [left | assumption]). Qed.

(** A run of the outer loop, event by event. *)
Lemma sort_loop_shape (total : nat) (flist : list string) :
  forall script st, in_step flist st ->
  let res := sort_loop dlist delete single total flist script st in
  exists evs,
    log res.2 = log st ++ evs
    /\ plays evs `prefix_of` tail flist
    /\ removals evs `prefix_of` (if delete then flist else [])
    /\ progress evs `prefix_of` map (fun k => (k, total)) (countdown (length flist))
    /\ Forall (queue_event flist (dlist ++ [QUIT_CHOICE])) evs
    /\ (forall x, x ∈ disk res.2 ->
                  x ∈ disk st \/ x ∈ map copy_target (copies evs))
    /\ (forall x, x ∈ disk st \/ x ∈ map copy_target (copies evs) ->
                  x ∈ disk res.2 \/ x ∈ removals evs)
    /\ match res.1 with
       | Finished =>
           plays evs = tail flist
           /\ removals evs = (if delete then flist else [])
           /\ progress evs = map (fun k => (k, total)) (countdown (length flist))
           /\ quits evs = 1
       | Quit => quits evs = 1
       | Crashed e => engine_error e /\ quits evs = 0
       | Blocked => quits evs = 0
       end.
Proof.
  induction flist as [|h flist IH]; intros script st [Hpl Hpos]; cbv zeta.
  - cbn. exists [PlayerQuit; AllSorted]. rewrite <- app_assoc. cbn.
    split_and!; try done; try (now destruct delete);
      try (repeat constructor; fail); try (intros x Hx; now left).
  - specialize (Hpos ltac:(discriminate)). cbn [sort_loop].
    destruct (sort_one_shape total (length (h :: flist)) h flist script st Hpl Hpos)
      as (body & tl & Hlog1 & Hask & Hdisk1 & Hone).
    destruct (ask_events_silent _ _ _ Hask) as (Hp0 & Hr0 & Hg0 & Hq0).
    assert (Hbody : Forall (queue_event (h :: flist) (dlist ++ [QUIT_CHOICE])) body).
    { eapply Forall_impl; [exact Hask |]. intros e. apply ask_queue_event. }
    assert (Hnp : plays (next_play flist) `prefix_of` flist
                  /\ removals (next_play flist) = []
                  /\ progress (next_play flist) = []
                  /\ quits (next_play flist) = 0
                  /\ copies (next_play flist) = []
                  /\ Forall (queue_event (h :: flist) (dlist ++ [QUIT_CHOICE]))
                       (next_play flist)).
    { destruct flist as [|g r]; cbn; split_and!; try done;
        [apply prefix_cons, prefix_nil | now repeat constructor]. }
    destruct Hnp as (Hnp1 & Hnp2 & Hnp3 & Hnp4 & Hnp5 & Hnp6).
    destruct (sort_one dlist delete single total (length (h :: flist)) script st)
      as [fl st1]. cbn [fst snd] in *.
    destruct fl as [script'| |e|]; cbn [fst snd].
    + destruct Hone as [Hstep ->].
      destruct (IH script' st1 Hstep) as
        (evs2 & Hlog2 & Hpl2 & Hrm2 & Hpg2 & Hq2 & Hd2 & Hk2 & Hend).
      destruct (sort_loop dlist delete single total flist script' st1) as [r st2].
      cbn [fst snd] in *.
      set (rm := if delete then [Removed h] else []) in *.
      assert (Hrm : plays rm = [] /\ progress rm = [] /\ quits rm = 0 /\ copies rm = []
                    /\ removals rm = (if delete then [h] else [])).
      { subst rm. now destruct delete. }
      destruct Hrm as (Hrm_p & Hrm_g & Hrm_q & Hrm_c & Hrm_r).
      assert (Hplays : plays (Progress (length (h :: flist)) total
                                :: body ++ (next_play flist ++ rm) ++ evs2)
                       = plays (next_play flist) ++ plays evs2).
      { cbn [plays]. rewrite !plays_app, Hp0, Hrm_p, app_nil_r. reflexivity. }
      assert (Hremovals : removals (Progress (length (h :: flist)) total
                                      :: body ++ (next_play flist ++ rm) ++ evs2)
                          = (if delete then [h] else []) ++ removals evs2).
      { cbn [removals]. rewrite !removals_app, Hr0, Hnp2, Hrm_r. reflexivity. }
      assert (Hprogress : progress (Progress (length (h :: flist)) total
                                      :: body ++ (next_play flist ++ rm) ++ evs2)
                          = (length (h :: flist), total) :: progress evs2).
      { cbn [progress]. rewrite !progress_app, Hg0, Hnp3, Hrm_g. reflexivity. }
      assert (Hquits : quits (Progress (length (h :: flist)) total
                                :: body ++ (next_play flist ++ rm) ++ evs2)
                       = quits evs2).
      { cbn [quits]. rewrite !quits_app, Hq0, Hnp4, Hrm_q. reflexivity. }
      assert (Hcopies : copies (Progress (length (h :: flist)) total
                                  :: body ++ (next_play flist ++ rm) ++ evs2)
                        = copies body ++ copies evs2).
      { cbn [copies]. rewrite !copies_app, Hnp5, Hrm_c. reflexivity. }
      assert (Hplays_full : plays evs2 = tail flist ->
                            plays (next_play flist) ++ plays evs2 = flist).
      { destruct flist; cbn; [auto | now intros ->]. }
      exists (Progress (length (h :: flist)) total
              :: body ++ (next_play flist ++ rm) ++ evs2).
      rewrite Hplays, Hremovals, Hprogress, Hquits, Hcopies.
      split_and!.
      * rewrite Hlog2, Hlog1, <- !app_assoc, <- app_comm_cons, <- !app_assoc.
        reflexivity.
      * cbn [tail]. destruct flist as [|g flist']; cbn in *; [exact Hpl2 |].
        now apply prefix_cons.
      * destruct delete; cbn; [now apply prefix_cons | exact Hrm2].
      * cbn [length countdown map]. now apply prefix_cons.
      * constructor; [exact I |]. apply Forall_app. split; [exact Hbody |].
        apply Forall_app. split.
        -- apply Forall_app. split; [exact Hnp6 |].
           subst rm. destruct delete; now repeat constructor.
        -- eapply Forall_impl; [exact Hq2 |]. intros e. apply queue_event_mono.
      * intros x Hx. rewrite fmap_app, elem_of_app.
        destruct (Hd2 x Hx) as [Hx1|?]; [|tauto].
        apply Hdisk1 in Hx1 as [[?|?] _]; tauto.
      * intros x Hx. rewrite fmap_app, elem_of_app in Hx. rewrite elem_of_app.
        assert (Hcase : (x ∈ disk st \/ x ∈ map copy_target (copies body))
                        \/ x ∈ map copy_target (copies evs2)) by tauto.
        destruct Hcase as [Hturn|Hlater]; [|destruct (Hk2 x); tauto].
        destruct (decide (x ∈ removals (next_play flist ++ rm))) as [Hin|Hout].
        -- rewrite removals_app, Hnp2, Hrm_r in Hin. tauto.
        -- assert (x ∈ disk st1) as Hx1 by (apply Hdisk1; now split).
           destruct (Hk2 x); tauto.
      * destruct r; cbn [tail length countdown map].
        -- destruct Hend as (-> & -> & -> & ->).
           split_and!; try done; [| now destruct delete].
           destruct flist; reflexivity.
        -- exact Hend.
        -- exact Hend.
        -- exact Hend.
    + subst tl. exists (Progress (length (h :: flist)) total
                        :: body ++ [Quitting; PlayerQuit]).
      cbn [plays removals progress quits copies].
      rewrite plays_app, removals_app, progress_app, quits_app, copies_app,
        Hp0, Hr0, Hg0, Hq0. cbn. rewrite app_nil_r.
      split_and!; try done.
      * apply prefix_nil.
      * apply prefix_nil.
      * apply prefix_cons, prefix_nil.
      * constructor; [exact I |]. apply Forall_app. split; [exact Hbody |].
        now repeat constructor.
      * intros x Hx. now apply Hdisk1 in Hx as [? _].
      * intros x Hx. left. apply Hdisk1. split; [exact Hx | cbn; apply not_elem_of_nil].
    + destruct Hone as [Herr Htl].
      assert (Htail : plays tl `prefix_of` flist /\ removals tl = [] /\ progress tl = []
                      /\ quits tl = 0 /\ copies tl = []
                      /\ Forall (queue_event (h :: flist) (dlist ++ [QUIT_CHOICE])) tl).
      { destruct Htl as [-> | ->]; [|now split_and!].
        split_and!; first [done | apply prefix_nil | constructor]. }
      destruct Htail as (Ht1 & Ht2 & Ht3 & Ht4 & Ht5 & Ht6).
      exists (Progress (length (h :: flist)) total :: body ++ tl).
      cbn [plays removals progress quits copies].
      rewrite plays_app, removals_app, progress_app, quits_app, copies_app,
        Hp0, Hr0, Hg0, Hq0, Ht2, Ht3, Ht4, Ht5. cbn. rewrite app_nil_r.
      split_and!; try done.
      * apply prefix_nil.
      * apply prefix_cons, prefix_nil.
      * constructor; [exact I |]. apply Forall_app. now split.
      * intros x Hx. now apply Hdisk1 in Hx as [? _].
      * intros x Hx. left. apply Hdisk1. split; [exact Hx |].
        rewrite Ht2. apply not_elem_of_nil.
    + subst tl. rewrite app_nil_r in Hlog1.
      exists (Progress (length (h :: flist)) total :: body).
      cbn [plays removals progress quits copies]. rewrite Hp0, Hr0, Hg0, Hq0.
      split_and!; try done.
      * apply prefix_nil.
      * apply prefix_nil.
      * apply prefix_cons, prefix_nil.
      * now constructor.
      * intros x Hx. now apply Hdisk1 in Hx as [? _].
      * intros x Hx. left. apply Hdisk1. split; [exact Hx | cbn; apply not_elem_of_nil].
Qed.

(** A call of [sort_files], event by event. *)
Lemma sort_files_shape (flist : list string) (script : list (option (list string)))
  (st : state) :
  let res := sort_files flist dlist delete single script st in
  let evs := new_events st res.2 in
  plays evs `prefix_of` flist
  /\ removals evs `prefix_of` (if delete then flist else [])
  /\ progress evs
     `prefix_of` map (fun k => (k, length flist)) (countdown (length flist))
  /\ Forall (queue_event flist (dlist ++ [QUIT_CHOICE])) evs
  /\ (forall x, x ∈ disk res.2 ->
                x ∈ disk st \/ x ∈ map copy_target (copies evs))
  /\ (forall x, x ∈ disk st \/ x ∈ map copy_target (copies evs) ->
                x ∈ disk res.2 \/ x ∈ removals evs)
  /\ match res.1 with
     | Finished =>
         plays evs = flist
         /\ removals evs = (if delete then flist else [])
         /\ progress evs = map (fun k => (k, length flist)) (countdown (length flist))
         /\ quits evs = 1
     | Quit => quits evs = 1
     | Crashed e => engine_error e /\ quits evs = 0
     | Blocked => quits evs = 0
     end.
Proof.
  cbv zeta. unfold sort_files.
  destruct (player_load_in_step flist st) as (Hstep & Hdisk0 & Hlog0).
  fold (next_play flist) in Hlog0.
  destruct (sort_loop_shape (length flist) flist script (player_load flist st) Hstep)
    as (evs & Hlog & Hpl & Hrm & Hpg & Hq & Hd & Hk & Hend).
  set (res := sort_loop dlist delete single (length flist) flist script
                (player_load flist st)) in *.
  rewrite (new_events_app st res.2 (next_play flist ++ evs))
    by (rewrite Hlog, Hlog0; now rewrite app_assoc).
  rewrite plays_app, removals_app, progress_app, copies_app.
  assert (Hnp : removals (next_play flist) = [] /\ progress (next_play flist) = []
                /\ copies (next_play flist) = [] /\ quits (next_play flist) = 0)
    by (destruct flist; now split_and!).
  destruct Hnp as (-> & -> & -> & Hq0). rewrite Hdisk0 in Hd, Hk. cbn [app].
  split_and!; try done.
  - destruct flist as [|g r]; cbn in *; [exact Hpl | now apply prefix_cons].
  - apply Forall_app. split; [|exact Hq]. destruct flist; now repeat constructor.
  - destruct res.1; rewrite ?quits_app, ?Hq0; try exact Hend.
    destruct Hend as (-> & -> & -> & ->). split_and!; try done.
    destruct flist; reflexivity.
Qed.

End RunShape.

(** ** Properties of a whole run *)

Section WholeRun.

Variables (flist dlist : list string) (delete single : bool).
Variables (script : list (option (list string))) (st : state).

(** X6: the files are played in the order of the queue, each at most once,
    and the progress lines count down from the length of the queue; a run
    that finishes has played every file and printed every line. *)
Theorem queue_order :
  let res := sort_files flist dlist delete single script st in
  let evs := new_events st res.2 in
  plays evs `prefix_of` flist
  /\ progress evs
     `prefix_of` map (fun k => (k, length flist)) (countdown (length flist))
  /\ match res.1 with
     | Finished =>
         plays evs = flist
         /\ progress evs = map (fun k => (k, length flist)) (countdown (length flist))
     | _ => True
     end.
Proof.
  cbv zeta.
  destruct (sort_files_shape dlist delete single flist script st)
    as (Hpl & _ & Hpg & _ & _ & _ & Hend).
  split_and!; [exact Hpl | exact Hpg |].
  destruct (sort_files flist dlist delete single script st).1; try exact I.
  now destruct Hend as (? & _ & ? & _).
Qed.

(** X7: the files deleted are files of the queue, in its order; with the
    delete option a run that finishes has deleted every file of the queue,
    and without the option no run deletes anything. *)
Theorem deletions_follow_the_queue :
  let res := sort_files flist dlist delete single script st in
  let evs := new_events st res.2 in
  (if delete then removals evs `prefix_of` flist else removals evs = [])
  /\ match res.1 with
     | Finished => removals evs = (if delete then flist else [])
     | _ => True
     end.
Proof.
  cbv zeta.
  destruct (sort_files_shape dlist delete single flist script st)
    as (_ & Hrm & _ & _ & _ & _ & Hend).
  split.
  - destruct delete; [exact Hrm | now apply prefix_nil_inv].
  - destruct (sort_files flist dlist delete single script st).1; try exact I.
    now destruct Hend as (_ & ? & _).
Qed.

(** X8: the player is quit once when the run finishes or is stopped by
    QUIT_CHOICE, and not at all when the run ends in an exception or waits;
    an exception that ends a run is one of a file operation or of
    [list.remove], never one of the playlist. *)
Theorem player_quit_once :
  let res := sort_files flist dlist delete single script st in
  quits (new_events st res.2)
  = match res.1 with Finished | Quit => 1 | _ => 0 end
  /\ match res.1 with
     | Crashed e => engine_error e
     | _ => True
     end.
Proof.
  cbv zeta.
  destruct (sort_files_shape dlist delete single flist script st)
    as (_ & _ & _ & _ & _ & _ & Hend).
  destruct (sort_files flist dlist delete single script st).1;
    [now destruct Hend as (_ & _ & _ & ?) | now split | now destruct Hend | now split].
Qed.

(** X9: every prompt and every copy of a run is for a file of the queue;
    a prompt offers labels of [dlist] and QUIT_CHOICE, no more than it was
    built with, and no copy goes to QUIT_CHOICE. *)
Theorem only_queue_files_and_labels :
  let res := sort_files flist dlist delete single script st in
  Forall (queue_event flist (dlist ++ [QUIT_CHOICE])) (new_events st res.2).
Proof.
  cbv zeta.
  now destruct (sort_files_shape dlist delete single flist script st)
    as (_ & _ & _ & ? & _).
Qed.

End WholeRun.

(** ** The pool and the copy loop *)

Section PoolAccounting.

(** X12: every prompt of a decision loop offers labels of the pool the loop
    started with, no more; when the loop falls through, the pool it leaves
    is the starting pool less the labels that were copied to. *)
Theorem pool_is_start_less_copies (single : bool) (f : string)
  (script : list (option (list string))) (pool : list string) (st : state) :
  let res := decision_loop single f script false pool st in
  let evs := new_events st res.2 in
  Forall (fun e => match e with Prompt _ p _ => p ⊆+ pool | _ => True end) evs
  /\ match res.1 with
     | Next (_, pool', _) => pool ≡ₚ (copies evs).*2 ++ pool'
     | _ => True
     end.
Proof.
  cbv zeta.
  destruct (decision_loop_shape single f script false pool st)
    as (body & Hlog & Hask & _ & Hend).
  rewrite (new_events_app _ _ _ Hlog). split.
  - apply Forall_app. split.
    + eapply Forall_impl; [exact Hask |]. intros [] He; try exact I. now destruct He.
    + destruct (decision_loop single f script false pool st).1; now repeat constructor.
  - destruct (decision_loop single f script false pool st).1 as [[[ex pool'] scr]| | |];
      try exact I.
    cbn [quit_ending]. now rewrite app_nil_r.
Qed.

(** X13: the copy loop copies before it strikes the label off the pool: when
    it raises ValueError for a label, what it has logged is the copies to a
    front part of the answer, the last of them the copy to that label; the
    labels before it were in the pool, and that label was not in what they
    left of it. *)
Theorem value_error_after_the_copy (f : string) (choice : list string) :
  forall pool st d,
    let res := copy_choices f choice pool st in
    res.1 = Raise (ValueError d) ->
    exists done,
      (done ++ [d]) `prefix_of` choice
      /\ new_events st res.2 = map (Copied f) (done ++ [d])
      /\ done ⊆+ pool
      /\ ~ (done ++ [d]) ⊆+ pool.
Proof.
  induction choice as [|cho choice IH]; intros pool st d; cbv zeta;
    cbn [copy_choices]; [discriminate |].
  unfold shutil_copy. case_bool_decide as Hsrc; [|discriminate].
  destruct (String.eqb (join cho (basename f)) f); [discriminate |].
  set (st2 := emit (Copied f cho) (set_disk (disk st ∪ {[join cho (basename f)]}) st)).
  destruct (py_remove cho pool) as [pool1|] eqn:Hrm.
  - intros Hres.
    destruct (IH pool1 st2 d Hres) as (done & Hpre & Hevs & Hsub & Hnot).
    pose proof (py_remove_Some _ _ _ Hrm) as Hperm.
    exists (cho :: done). split_and!.
    + cbn. now apply prefix_cons.
    + unfold new_events in Hevs |- *.
      destruct (copy_choices_effects f choice pool1 st2) as (done' & _ & _ & Hlog & _).
      cbv zeta in Hlog. rewrite Hlog in Hevs |- *. cbn [st2 log emit set_disk] in Hevs |- *.
      rewrite drop_app_length in Hevs. rewrite <- !app_assoc, drop_app_length.
      cbn. now rewrite Hevs.
    + rewrite Hperm. now apply submseteq_skip.
    + rewrite Hperm. intros H. apply Hnot.
      apply (submseteq_app_inv_l _ _ [cho]). exact H.
  - cbn [fst snd]. intros [= <-]. exists []. split_and!.
    + cbn. apply prefix_cons, prefix_nil.
    + now apply new_events_app.
    + apply submseteq_nil_l.
    + intros H. assert (Hin : cho ∈ pool).
      { eapply elem_of_submseteq; [|exact H]. left. }
      destruct (py_remove_elem cho pool Hin) as [r Hr]. congruence.
Qed.

Lemma value_error_after_the_copy_witness :
  let pool := ["t/x"; "t/y"; QUIT_CHOICE] in
  let res := copy_choices "s/a.png" ["t/y"; "t/x"; "t/x"] pool sample_state in
  res.1 = Raise (ValueError "t/x")
  /\ exists done,
       (done ++ ["t/x"]) `prefix_of` ["t/y"; "t/x"; "t/x"]
       /\ new_events sample_state res.2 = map (Copied "s/a.png") (done ++ ["t/x"])
       /\ done ⊆+ pool
       /\ ~ (done ++ ["t/x"]) ⊆+ pool.
Proof.
  cbv zeta.
  assert (H : (copy_choices "s/a.png" ["t/y"; "t/x"; "t/x"]
                 ["t/x"; "t/y"; QUIT_CHOICE] sample_state).1
              = Raise (ValueError "t/x"))
    by (vm_compute; reflexivity).
  split; [exact H |].
  exact (value_error_after_the_copy "s/a.png" ["t/y"; "t/x"; "t/x"]
           ["t/x"; "t/y"; QUIT_CHOICE] sample_state "t/x" H).
Defined.

End PoolAccounting.

(** ** [main] from the scans to the run *)

Section Main.

Variables (stat : string -> option node) (source target : string).
Variables (recursive delete single : bool) (script : list (option (list string))).

(** The scans of [main] when both roots are directories. *)
Lemma main_scan_dirs (ls lt : listing) :
  stat source = Some (Dir ls) -> stat target = Some (Dir lt) ->
  main_scan stat source target recursive
  = (Next ((gather_files source ls recursive).1, (gather_directories target lt).1),
     mkState (files_at stat source ∪ files_at stat target) [] (-1)
       ((gather_files source ls recursive).2 ++ (gather_directories target lt).2)).
Proof.
  intros Hs Ht. unfold main_scan, os_listdir, os_path_isdir. rewrite Hs, Ht.
  cbn [isdir]. destruct (gather_files source ls recursive) as [fl out_f].
  destruct (gather_directories target lt) as [dl out_d]. reflexivity.
Qed.

Lemma no_directory_no_target (root : string) (lt : listing) :
  (forall name n, (name, n) ∈ entries lt -> isdir n = false) ->
  (gather_directories root lt).1 = ∅.
Proof.
  induction lt as [|name n rest IH]; intros Hflat; [reflexivity |].
  rewrite gather_directories_cons, IH.
  - destruct n as [| |sub]; try apply (left_id_L ∅ (∪)).
    specialize (Hflat name (Dir sub) ltac:(left)). discriminate.
  - intros name' n' Hin. apply (Hflat name' n'). now right.
Qed.

(** X14: with both roots directories, [main] sorts when it found a media
    file and a target directory, and otherwise prints that there is nothing
    to sort and ends: after the lines of the scans it prints that one line,
    and the disk is as it was.  A target without subdirectories is such a
    case: the target root itself is no destination. *)
Theorem main_nothing_to_sort (ls lt : listing) :
  stat source = Some (Dir ls) -> stat target = Some (Dir lt) ->
  let res := main stat source target recursive delete single script in
  let found_f := gather_files source ls recursive in
  let found_d := gather_directories target lt in
  (if bool_decide (found_f.1 ≠ ∅) && bool_decide (found_d.1 ≠ ∅)
   then exists r, res.1 = Sorted r
   else res.1 = NoCandidates
        /\ log res.2 = found_f.2 ++ found_d.2 ++ [NothingToSort]
        /\ disk res.2 = files_at stat source ∪ files_at stat target)
  /\ ((forall name n, (name, n) ∈ entries lt -> isdir n = false) ->
      res.1 = NoCandidates).
Proof.
  intros Hs Ht. cbv zeta. unfold main. rewrite (main_scan_dirs ls lt Hs Ht).
  split.
  - destruct (bool_decide ((gather_files source ls recursive).1 ≠ ∅)
              && bool_decide ((gather_directories target lt).1 ≠ ∅)).
    + destruct (sort_files _ _ _ _ _ _) as [r st']. now exists r.
    + cbn. split_and!; try done. now rewrite <- app_assoc.
  - intros Hflat. rewrite (no_directory_no_target target lt Hflat).
    rewrite (bool_decide_eq_false_2 (∅ ≠ ∅)) by (intros H; now apply H).
    now rewrite andb_false_r.
Qed.

(** X15: when the source is not a directory, [main] prints so (and the same
    for the target), scans nothing, and ends in the exception that
    [os.listdir] raises on the source. *)
Theorem main_without_source :
  os_path_isdir stat source = false ->
  let res := main stat source target recursive delete single script in
  (res.1 = ScanCrashed (NotADirectoryError source)
   \/ res.1 = ScanCrashed (FileNotFoundError source))
  /\ log res.2
     = SourceNotDir source
       :: (if os_path_isdir stat target then [] else [TargetNotDir target]).
Proof.
  intros Hs. cbv zeta. unfold main, main_scan, os_listdir in *.
  rewrite Hs. unfold os_path_isdir in Hs.
  destruct (stat source) as [[| |ls]|]; try discriminate;
    destruct (os_path_isdir stat target); cbn; split; auto.
Qed.

End Main.

Lemma main_nothing_to_sort_witness :
  let stat' := fun p : string =>
    if String.eqb p "s" then Some (Dir sample_tree)
    else if String.eqb p "flat" then Some (Dir (Lcons "note.txt" File Lnil))
    else None in
  let res := main stat' "s" "flat" true true false [Some ["flat"]] in
  stat' "s" = Some (Dir sample_tree)
  /\ stat' "flat" = Some (Dir (Lcons "note.txt" File Lnil))
  /\ (forall name n, (name, n) ∈ entries (Lcons "note.txt" File Lnil) -> isdir n = false)
  /\ res.1 = NoCandidates.
Proof.
  cbv zeta.
  assert (H3 : forall name n,
             (name, n) ∈ entries (Lcons "note.txt" File Lnil) -> isdir n = false).
  { intros name n [[= -> ->]|H]%elem_of_cons; [reflexivity | inversion H]. }
  split; [reflexivity |]. split; [reflexivity |]. split; [exact H3 |].
  exact (proj2 (main_nothing_to_sort
                  (fun p : string =>
                     if String.eqb p "s" then Some (Dir sample_tree)
                     else if String.eqb p "flat"
                          then Some (Dir (Lcons "note.txt" File Lnil))
                          else None)
                  "s" "flat" true true false [Some ["flat"]]
                  sample_tree (Lcons "note.txt" File Lnil) eq_refl eq_refl) H3).
Defined.

Lemma main_without_source_witness :
  let res := main sample_stat "t" "s" false false false [] in
  os_path_isdir sample_stat "t" = false
  /\ (res.1 = ScanCrashed (NotADirectoryError "t")
      \/ res.1 = ScanCrashed (FileNotFoundError "t"))
  /\ log res.2
     = SourceNotDir "t"
       :: (if os_path_isdir sample_stat "s" then [] else [TargetNotDir "s"]).
Proof.
  cbv zeta. split; [reflexivity |].
  apply (main_without_source sample_stat "t" "s" false false false []). reflexivity.
Defined.

Section MainRun.

Lemma plays_elem (x : string) (evs : list event) : x ∈ plays evs <-> Play x ∈ evs.
Proof.
  induction evs as [|e evs IH]; [split; inversion 1 |].
  destruct e; cbn; rewrite ?elem_of_cons, IH; split;
    try (intros [?|?]; [discriminate | assumption]); try (intros ?; now right).
  - intros [->|?]; [now left | now right].
  - intros [[= ->]|?]; [now left | now right].
Qed.

Lemma sort_files_log (flist dlist : list string) (delete single : bool)
  (script : list (option (list string))) (st : state) :
  let res := sort_files flist dlist delete single script st in
  log res.2 = log st ++ new_events st res.2.
Proof.
  cbv zeta. unfold sort_files.
  destruct (player_load_in_step flist st) as (Hstep & _ & Hlog0).
  destruct (sort_loop_run dlist delete single (length flist) flist script
              (player_load flist st) Hstep) as (evs & Hlog & _).
  rewrite Hlog0, <- app_assoc in Hlog.
  now rewrite (new_events_app _ _ _ Hlog).
Qed.

Lemma gathered_file_is_media (root : string) (l : listing) (recursive : bool)
  (p : string) :
  p ∈ (gather_files root l recursive).1 -> walk root l p File /\ is_media p = true.
Proof.
  intros Hp. apply gather_files_walk.
  destruct recursive; [exact Hp | now apply gather_files_flat_subseteq].
Qed.

(** X16: in a run of [main] with both roots directories, every file that is
    played, offered, copied or deleted is a media file of the source tree,
    every prompt offers QUIT_CHOICE and directories below the target and
    nothing else, and no copy goes to QUIT_CHOICE. *)
Theorem main_handles_scanned_paths (stat : string -> option node)
  (source target : string) (recursive delete single : bool)
  (script : list (option (list string))) (ls lt : listing) :
  stat source = Some (Dir ls) -> stat target = Some (Dir lt) ->
  Forall (scanned_event source ls target lt)
    (log (main stat source target recursive delete single script).2).
Proof.
  intros Hs Ht. unfold main. rewrite (main_scan_dirs _ _ _ _ ls lt Hs Ht).
  set (found_f := gather_files source ls recursive).
  set (found_d := gather_directories target lt).
  assert (Hscan : Forall (scanned_event source ls target lt) (found_f.2 ++ found_d.2)).
  { apply Forall_app. split; apply Forall_forall; intros e He.
    - apply gather_files_out_elem in He as (p & -> & _). exact I.
    - apply gather_directories_out_elem in He as (p & -> & _). exact I. }
  destruct (bool_decide (found_f.1 ≠ ∅) && bool_decide (found_d.1 ≠ ∅)).
  2:{ cbn. apply Forall_app. split; [exact Hscan | now repeat constructor]. }
  set (st := mkState _ _ _ _).
  pose proof (sort_files_log (elements found_f.1) (elements found_d.1) delete single
                script st) as Hlog.
  destruct (sort_files_shape (elements found_d.1) delete single (elements found_f.1)
              script st) as (Hpl & Hrm & _ & Hq & _).
  cbv zeta in Hlog.
  destruct (sort_files (elements found_f.1) (elements found_d.1) delete single script st)
    as [r st'] eqn:Hrun. cbn [fst snd] in *.
  rewrite Hlog. apply Forall_app. split; [exact Hscan |].
  assert (Hfile : forall g, g ∈ elements found_f.1 ->
                            walk source ls g File /\ is_media g = true).
  { intros g Hg%elem_of_elements. now apply (gathered_file_is_media _ _ recursive). }
  apply Forall_forall. intros e He. rewrite Forall_forall in Hq. specialize (Hq e He).
  destruct e; cbn in Hq |- *; try exact I.
  - apply Hfile. apply plays_elem in He. destruct Hpl as [k ->].
    apply elem_of_app. now left.
  - destruct Hq as [Hg Hp]. split; [now apply Hfile |].
    intros d Hd. eapply elem_of_submseteq in Hd; [|exact Hp].
    apply elem_of_app in Hd as [Hd%elem_of_elements|Hd%list_elem_of_singleton];
      [right | now left].
    now apply gather_directories_walk.
  - destruct Hq as [Hg Hd]. split; [now apply Hfile | exact Hd].
  - apply Hfile. apply removals_elem in He.
    destruct delete; [|apply prefix_nil_inv in Hrm; rewrite Hrm in He; inversion He].
    destruct Hrm as [k ->]. apply elem_of_app. now left.
Qed.

Lemma main_handles_scanned_paths_witness :
  let stat := fun p : string =>
    if String.eqb p "s" then Some (Dir sample_tree) else None in
  stat "s" = Some (Dir sample_tree)
  /\ Forall (scanned_event "s" sample_tree "s" sample_tree)
       (log (main stat "s" "s" true true false
               [Some ["s/d/e"]; None; Some ["s/d"; "s/d/e"]; None; None]).2).
Proof.
  cbv zeta. split; [reflexivity |].
  apply (main_handles_scanned_paths
           (fun p : string => if String.eqb p "s" then Some (Dir sample_tree) else None)
           "s" "s" true true false
           [Some ["s/d/e"]; None; Some ["s/d"; "s/d/e"]; None; None]
           sample_tree sample_tree); reflexivity.
Defined.

End MainRun.

(** ** The copies of a run of [main] *)

Section Answers.

Variables (dlist : list string) (delete single : bool).

Lemma asked_nil : asked [].
Proof. intros f d H. inversion H. Qed.

Lemma asked_app (a b : list event) : asked a -> asked b -> asked (a ++ b).
Proof.
  intros Ha Hb f d [Hin|Hin]%elem_of_app.
  - destruct (Ha f d Hin) as (pool & l & Hp & Hd). exists pool, l.
    split; [apply elem_of_app; now left | exact Hd].
  - destruct (Hb f d Hin) as (pool & l & Hp & Hd). exists pool, l.
    split; [apply elem_of_app; now right | exact Hd].
Qed.

Lemma asked_silent (evs : list event) : copies evs = [] -> asked evs.
Proof.
  intros Hc f d Hin%copies_elem. rewrite Hc in Hin. inversion Hin.
Qed.

(** A prompt, the copies to labels of its answer, and what follows. *)
Lemma asked_round (f : string) (pool : list string) (answer : option (list string))
  (done : list string) (evs : list event) :
  (forall d, d ∈ done -> exists l, answer = Some l /\ d ∈ l) ->
  asked evs ->
  asked (Prompt f pool answer :: map (Copied f) done ++ evs).
Proof.
  intros Hdone Hevs g d [E|[Hin|Hin]%elem_of_app]%elem_of_cons; [discriminate | |].
  - apply list_elem_of_fmap in Hin as (d' & [= -> ->] & Hd').
    destruct (Hdone d' Hd') as (l & -> & Hl). exists pool, l. split; [left | exact Hl].
  - destruct (Hevs g d Hin) as (pool' & l & Hp & Hd). exists pool', l.
    split; [|exact Hd]. right. apply elem_of_app. now right.
Qed.

(** The decision loop copies to labels of its answers only. *)
Lemma decision_loop_asked (f : string) (script : list (option (list string)))
  (cancelled : bool) (pool : list string) (st : state) :
  let res := decision_loop single f script cancelled pool st in
  exists evs, log res.2 = log st ++ evs /\ asked evs.
Proof.
  cbv zeta.
  functional induction (decision_loop single f script cancelled pool st);
    cbn [fst snd].
  all: try match goal with
       | IH : exists _ : list event, _ |- _ => destruct IH as (evs & Hevs & Hasked)
       end.
  all: try match goal with
       | H : copy_choices _ _ _ _ = _ |- _ =>
           pose proof H as (done & todo & Hsplit & Hlog & _ & _ & _ & Hfl)%copy_choices_spec;
           cbn [log emit] in Hlog
       end.
  all: try contradiction.
  all: try (exists []; rewrite app_nil_r; split; [reflexivity | apply asked_nil]).
  all: try assert (Hdone : forall d, d ∈ done ->
                     exists l, Some (c :: cs) = Some l /\ d ∈ l)
         by (intros d Hd; exists (c :: cs); split; [reflexivity |];
             rewrite Hsplit; apply elem_of_app; now left).
  - exists [Prompt cur_file (_x :: _x0) (Some [])]. split; [reflexivity |].
    apply (asked_round cur_file _ _ [] []); [intros d H; inversion H | apply asked_nil].
  - exists (Prompt cur_file (_x :: _x0) (Some []) :: evs).
    split; [rewrite Hevs; cbn; now rewrite <- app_assoc |].
    apply (asked_round cur_file _ _ [] evs); [intros d H; inversion H | exact Hasked].
  - exists [Prompt cur_file (_x :: _x0) (Some (c :: cs)); Quitting; PlayerQuit].
    split; [cbn; now rewrite <- !app_assoc |].
    apply (asked_round cur_file _ _ [] [Quitting; PlayerQuit]);
      [intros d H; inversion H | now apply asked_silent].
  - exists (Prompt cur_file (_x :: _x0) (Some (c :: cs)) :: map (Copied cur_file) done ++ []).
    split; [rewrite Hlog, app_nil_r; now rewrite <- app_assoc |].
    apply asked_round; [exact Hdone | apply asked_nil].
  - exists (Prompt cur_file (_x :: _x0) (Some (c :: cs)) :: map (Copied cur_file) done ++ evs).
    split; [rewrite Hevs, Hlog; now rewrite <- !app_assoc |].
    now apply asked_round.
  - exists (Prompt cur_file (_x :: _x0) (Some (c :: cs)) :: map (Copied cur_file) done ++ []).
    split; [rewrite Hlog, app_nil_r; now rewrite <- app_assoc |].
    apply asked_round; [exact Hdone | apply asked_nil].
  - exists [Prompt cur_file (_x :: _x0) None]. split; [reflexivity |].
    apply (asked_round cur_file _ _ [] []); [intros d H; inversion H | apply asked_nil].
  - exists (Prompt cur_file (_x :: _x0) None :: evs).
    split; [rewrite Hevs; cbn; now rewrite <- app_assoc |].
    apply (asked_round cur_file _ _ [] evs); [intros d H; inversion H | exact Hasked].
Qed.

Lemma sort_one_asked (total n : nat) (f : string) (rest : list string)
  (script : list (option (list string))) (st : state) :
  playlist st = f :: rest -> playlist_pos st = 0%Z ->
  asked (new_events st (sort_one dlist delete single total n script st).2).
Proof.
  intros Hpl Hpos. unfold sort_one. rewrite (player_current_head f rest st Hpl Hpos).
  set (st0 := emit (Progress n total) st).
  destruct (decision_loop_frame single f script false (dlist ++ [QUIT_CHOICE]) st0)
    as (evs' & (_ & Hpl1 & Hpos1 & _ & _) & _).
  destruct (decision_loop_asked f script false (dlist ++ [QUIT_CHOICE]) st0)
    as (evs & Hlog & Hasked).
  destruct (decision_loop single f script false (dlist ++ [QUIT_CHOICE]) st0)
    as [fl st1]. cbn [fst snd] in *.
  assert (Hturn : asked (Progress n total :: evs)).
  { apply (asked_app [Progress n total] evs); [now apply asked_silent | exact Hasked]. }
  assert (Hnew : new_events st st1 = Progress n total :: evs).
  { apply new_events_app. rewrite Hlog. cbn. now rewrite <- app_assoc. }
  destruct fl as [[[ex pool'] script']| |e|]; cbn [fst snd]; try (now rewrite Hnew).
  destruct (advance_head delete f rest st1) as (adv & Halog & _ & Hadv & _);
    [now rewrite Hpl1 | now rewrite Hpos1 |].
  destruct (advance delete f st1) as [fl2 st2]. cbn [fst snd] in *.
  assert (Hnew2 : new_events st st2 = (Progress n total :: evs) ++ adv).
  { apply new_events_app. rewrite Halog, Hlog. cbn. now rewrite <- !app_assoc. }
  assert (Hsilent : asked adv).
  { intros g d Hin. rewrite Forall_forall in Hadv. destruct (Hadv _ Hin). }
  destruct fl2; cbn [fst snd]; rewrite Hnew2; now apply asked_app.
Qed.

Lemma sort_loop_asked (total : nat) (flist : list string) :
  forall script st, in_step flist st ->
  asked (new_events st (sort_loop dlist delete single total flist script st).2).
Proof.
  induction flist as [|h flist IH]; intros script st [Hpl Hpos].
  - cbn. rewrite (new_events_app st _ [PlayerQuit; AllSorted]);
      [now apply asked_silent | cbn; now rewrite <- app_assoc].
  - specialize (Hpos ltac:(discriminate)). cbn [sort_loop].
    pose proof (sort_one_asked total (length (h :: flist)) h flist script st Hpl Hpos)
      as Hone.
    destruct (sort_one_head dlist delete single total (length (h :: flist)) h flist
                script st Hpl Hpos) as (evs1 & Hlog1 & _ & Hres).
    destruct (sort_one dlist delete single total (length (h :: flist)) script st)
      as [fl st1]. cbn [fst snd] in *.
    destruct fl as [script'| |e|]; cbn [fst snd]; try exact Hone.
    destruct Hres as (Hstep & _).
    specialize (IH script' st1 Hstep).
    destruct (sort_loop_run dlist delete single total flist script' st1 Hstep)
      as (evs2 & Hlog2 & _).
    destruct (sort_loop dlist delete single total flist script' st1) as [r st2].
    cbn [fst snd] in *.
    rewrite (new_events_app _ _ _ Hlog1) in Hone.
    rewrite (new_events_app _ _ _ Hlog2) in IH.
    rewrite (new_events_app st st2 (evs1 ++ evs2))
      by (rewrite Hlog2, Hlog1; now rewrite app_assoc).
    now apply asked_app.
Qed.

Lemma sort_files_asked (flist : list string) (script : list (option (list string)))
  (st : state) :
  asked (new_events st (sort_files flist dlist delete single script st).2).
Proof.
  unfold sort_files.
  destruct (player_load_in_step flist st) as (Hstep & _ & Hlog0).
  pose proof (sort_loop_asked (length flist) flist script (player_load flist st) Hstep)
    as Hasked.
  destruct (sort_loop_run dlist delete single (length flist) flist script
              (player_load flist st) Hstep) as (evs & Hlog & _).
  rewrite (new_events_app _ _ _ Hlog) in Hasked.
  rewrite (new_events_app st _ (match flist with f :: _ => [Play f] | [] => [] end ++ evs))
    by (rewrite Hlog, Hlog0; now rewrite app_assoc).
  apply asked_app; [|exact Hasked]. apply asked_silent. now destruct flist.
Qed.

End Answers.

Section MainCopies.

Lemma scan_lines_hold_no_copy (source target : string) (ls lt : listing)
  (recursive : bool) :
  copies ((gather_files source ls recursive).2 ++ (gather_directories target lt).2) = [].
Proof.
  destruct (copies _) as [|[f d] cs] eqn:Hc; [reflexivity |].
  assert (Hin : (f, d) ∈ copies ((gather_files source ls recursive).2
                                 ++ (gather_directories target lt).2))
    by (rewrite Hc; left).
  apply copies_elem, elem_of_app in Hin as [Hin|Hin].
  - apply gather_files_out_elem in Hin as (p & E & _). discriminate.
  - apply gather_directories_out_elem in Hin as (p & E & _). discriminate.
Qed.

(** X11: in a run of [main] with both roots directories, without the delete
    option and with a finder that answers with labels it was offered: no
    file of the two trees leaves the disk, every copy goes to a directory
    found below the target, and the copy, under the name of the file in that
    directory, is on disk when the run ends. *)
Theorem copies_stay_without_delete (stat : string -> option node)
  (source target : string) (recursive single : bool)
  (script : list (option (list string))) (ls lt : listing) :
  stat source = Some (Dir ls) -> stat target = Some (Dir lt) ->
  let res := main stat source target recursive false single script in
  Forall honest (log res.2) ->
  files_at stat source ∪ files_at stat target ⊆ disk res.2
  /\ Forall (fun p => strict_descendant_dir target lt p.2
                      /\ copy_target p ∈ disk res.2)
       (copies (log res.2)).
Proof.
  intros Hs Ht. cbv zeta. unfold main. rewrite (main_scan_dirs _ _ _ _ ls lt Hs Ht).
  pose proof (scan_lines_hold_no_copy source target ls lt recursive) as Hscan.
  set (found_f := gather_files source ls recursive) in *.
  set (found_d := gather_directories target lt) in *.
  destruct (bool_decide (found_f.1 ≠ ∅) && bool_decide (found_d.1 ≠ ∅)).
  2:{ cbn. intros _. split; [reflexivity |].
      rewrite copies_app, Hscan. constructor. }
  set (st := mkState _ _ _ _).
  pose proof (sort_files_log (elements found_f.1) (elements found_d.1) false single
                script st) as Hlog.
  pose proof (sort_files_asked (elements found_d.1) false single (elements found_f.1)
                script st) as Hasked.
  destruct (sort_files_shape (elements found_d.1) false single (elements found_f.1)
              script st) as (_ & Hrm & _ & Hq & _ & Hk & _).
  cbv zeta in Hlog, Hrm, Hq, Hk.
  destruct (sort_files (elements found_f.1) (elements found_d.1) false single script st)
    as [r st'] eqn:Hrun. cbn [fst snd] in *.
  apply prefix_nil_inv in Hrm. rewrite Hrm in Hk.
  rewrite Hlog. cbn [log st]. rewrite copies_app, Hscan. cbn [app].
  intros [_ Hhonest]%Forall_app. split.
  - intros x Hx. destruct (Hk x (or_introl Hx)) as [?|H]; [assumption | inversion H].
  - apply Forall_forall. intros [f d] Hp. cbn [snd]. split.
    + pose proof Hp as Hc%copies_elem.
      destruct (Hasked f d Hc) as (pool & l & Hprompt & Hd).
      rewrite Forall_forall in Hhonest, Hq.
      destruct (Hhonest _ Hprompt) as [_ Hl]. rewrite Forall_forall in Hl.
      destruct (Hq _ Hprompt) as [_ Hpool]. destruct (Hq _ Hc) as [_ Hne].
      specialize (Hl d Hd). eapply elem_of_submseteq in Hl; [|exact Hpool].
      apply elem_of_app in Hl as [Hl%elem_of_elements|Hl%list_elem_of_singleton];
        [|contradiction].
      now apply gather_directories_walk.
    + destruct (Hk (copy_target (f, d))) as [?|H]; [| assumption | inversion H].
      right. apply list_elem_of_fmap. now exists (f, d).
Qed.

Lemma copies_stay_without_delete_witness :
  let script := [Some ["t/x"]; None; Some ["t/y"; "t/x"]; None] in
  let res := main sample_world "s" "t" false false false script in
  sample_world "s" = Some (Dir sample_tree)
  /\ sample_world "t" = Some (Dir sample_target)
  /\ Forall honest (log res.2)
  /\ length (copies (log res.2)) = 3
  /\ files_at sample_world "s" ∪ files_at sample_world "t" ⊆ disk res.2
  /\ Forall (fun p => strict_descendant_dir "t" sample_target p.2
                      /\ copy_target p ∈ disk res.2)
       (copies (log res.2)).
Proof.
  cbv zeta.
  assert (H : Forall honest
                (log (main sample_world "s" "t" false false false
                        [Some ["t/x"]; None; Some ["t/y"; "t/x"]; None]).2))
    by (apply (bool_decide_unpack _); vm_compute; exact I).
  split; [reflexivity |]. split; [reflexivity |]. split; [exact H |].
  split; [vm_compute; reflexivity |].
  exact (copies_stay_without_delete sample_world "s" "t" false false
           [Some ["t/x"]; None; Some ["t/y"; "t/x"]; None]
           sample_tree sample_target eq_refl eq_refl H).
Defined.

End MainCopies.

(** ** Single-choice runs *)

Section SingleRun.

Variables (dlist : list string) (delete : bool).

Lemma filter_prompt_app (a b : list event) :
  List.filter is_prompt (a ++ b) = List.filter is_prompt a ++ List.filter is_prompt b.
Proof. apply List.filter_app. Qed.

(** With the single-choice option a turn asks at most once, and once when it
    hands over to the next file. *)
Lemma sort_one_single_prompt (total n : nat) (f : string) (rest : list string)
  (script : list (option (list string))) (st : state) :
  playlist st = f :: rest -> playlist_pos st = 0%Z ->
  let res := sort_one dlist delete true total n script st in
  exists evs,
    log res.2 = log st ++ evs
    /\ length (List.filter is_prompt evs) <= 1
    /\ match res.1 with
       | Next _ => length (List.filter is_prompt evs) = 1 /\ in_step rest res.2
       | _ => True
       end.
Proof.
  intros Hpl Hpos. cbv zeta. unfold sort_one.
  rewrite (player_current_head f rest st Hpl Hpos).
  set (st0 := emit (Progress n total) st). set (pool := dlist ++ [QUIT_CHOICE]).
  assert (Hpool : pool <> []) by (subst pool; now intros [_ ?]%app_eq_nil).
  destruct script as [|answer script].
  { destruct pool as [|p pool'] eqn:E; [contradiction |]. cbn [decision_loop].
    exists [Progress n total]. cbn. split_and!; [reflexivity | lia | exact I]. }
  destruct (single_round f answer script pool st0 Hpool) as [Hfilter _].
  cbv zeta in Hfilter.
  destruct (decision_loop_frame true f (answer :: script) false pool st0)
    as (evs & (Hlog & Hpl1 & Hpos1 & _ & _) & _).
  destruct (decision_loop true f (answer :: script) false pool st0) as [fl st1].
  cbn [fst snd] in *. rewrite (new_events_app _ _ _ Hlog) in Hfilter.
  assert (Hone : length (List.filter is_prompt (Progress n total :: evs)) = 1)
    by (cbn; now rewrite Hfilter).
  destruct fl as [[[ex pool'] script']| |e|]; cbn [fst snd];
    try (exists (Progress n total :: evs);
         split_and!; [rewrite Hlog; cbn; now rewrite <- app_assoc | lia | exact I]).
  destruct (advance_shape delete f rest st1) as [Hstep Hadv];
    [now rewrite Hpl1 | now rewrite Hpos1 |].
  destruct (advance delete f st1) as [fl2 st2]. cbn [fst snd] in *.
  assert (Htail : forall t, log st2 = log st1 ++ t ->
                            List.filter is_prompt t = [] ->
                            log st2 = log st ++ Progress n total :: evs ++ t
                            /\ length (List.filter is_prompt
                                         (Progress n total :: evs ++ t)) = 1).
  { intros t Ht Hnone. split.
    - rewrite Ht, Hlog. cbn. now rewrite <- !app_assoc.
    - cbn [List.filter is_prompt]. rewrite filter_prompt_app, Hnone, app_nil_r.
      exact Hone. }
  destruct fl2 as [u| |e|]; try contradiction; cbn [fst snd].
  - destruct Hadv as [Halog _].
    destruct (Htail _ Halog) as [Hl Hc].
    { destruct rest, delete; reflexivity. }
    exists (Progress n total :: evs ++ next_play rest
              ++ (if delete then [Removed f] else [])).
    split_and!; [exact Hl | lia | exact Hc | exact Hstep].
  - destruct Hadv as (_ & Halog & _).
    destruct (Htail _ Halog) as [Hl Hc]; [now destruct rest |].
    exists (Progress n total :: evs ++ next_play rest).
    split_and!; [exact Hl | lia | exact I].
Qed.

Lemma sort_loop_single_prompts (total : nat) (flist : list string) :
  forall script st, in_step flist st ->
  let res := sort_loop dlist delete true total flist script st in
  exists evs,
    log res.2 = log st ++ evs
    /\ length (List.filter is_prompt evs) <= length flist
    /\ match res.1 with
       | Finished => length (List.filter is_prompt evs) = length flist
       | _ => True
       end.
Proof.
  induction flist as [|h flist IH]; intros script st [Hpl Hpos]; cbv zeta.
  - cbn. exists [PlayerQuit; AllSorted]. rewrite <- app_assoc.
    split_and!; [reflexivity | cbn; lia | reflexivity].
  - specialize (Hpos ltac:(discriminate)). cbn [sort_loop].
    destruct (sort_one_single_prompt total (length (h :: flist)) h flist script st
                Hpl Hpos) as (evs1 & Hlog1 & Hle & Hone).
    destruct (sort_one dlist delete true total (length (h :: flist)) script st)
      as [fl st1]. cbn [fst snd] in *.
    destruct fl as [script'| |e|]; cbn [fst snd];
      try (exists evs1; split_and!; [exact Hlog1 | cbn; lia | exact I]).
    destruct Hone as [Heq Hstep].
    destruct (IH script' st1 Hstep) as (evs2 & Hlog2 & Hle2 & Hfin).
    destruct (sort_loop dlist delete true total flist script' st1) as [r st2].
    cbn [fst snd] in *. exists (evs1 ++ evs2).
    rewrite filter_prompt_app, length_app. split_and!.
    + rewrite Hlog2, Hlog1. now rewrite app_assoc.
    + cbn. lia.
    + destruct r; try exact I. cbn. lia.
Qed.

(** X17: with the single-choice option a run asks at most one prompt per
    file of the queue, and a run that finishes has asked exactly one per
    file. *)
Theorem single_run_one_prompt_per_file (flist : list string)
  (script : list (option (list string))) (st : state) :
  let res := sort_files flist dlist delete true script st in
  let asked := length (List.filter is_prompt (new_events st res.2)) in
  asked <= length flist
  /\ match res.1 with
     | Finished => asked = length flist
     | _ => True
     end.
Proof.
  cbv zeta. unfold sort_files.
  destruct (player_load_in_step flist st) as (Hstep & _ & Hlog0).
  destruct (sort_loop_single_prompts (length flist) flist script
              (player_load flist st) Hstep) as (evs & Hlog & Hle & Hfin).
  rewrite Hlog0, <- app_assoc in Hlog. rewrite (new_events_app _ _ _ Hlog).
  rewrite filter_prompt_app.
  assert (List.filter is_prompt match flist with f :: _ => [Play f] | [] => [] end = [])
    as -> by now destruct flist.
  now split.
Qed.

End SingleRun.
